(** * Verification of the citation-graph builder of LitCitGraph
    (src/litcitgraph/graphs.py).

    Shallow embedding of [add_cit_graph_node], [add_cit_graph_edge] and of
    the class [CitationGraph] (state, [__initialise], [__iterate],
    [build_from_ids], [transform_graphistry]).

    - A networkx [DiGraph] is a map from node keys to attribute dicts and a
      map from ordered pairs to edge attribute dicts.
    - The two Scopus collaborators ([get_from_scopus], [get_refs_from_scopus]),
      the [PaperInfo] type with its value equality, its [scopus_id] field and
      its [graph_properties_as_dict] method live in other modules of the
      package; they are Section variables, so every theorem holds for all of
      them.
    - Every collaborator call is recorded, together with its answer, in a
      trace kept next to the graph object.
    - Python exceptions are an [outcome] that keeps the state reached at the
      raise. *)

From stdpp Require Import base gmap sets list strings pretty.
From Stdlib Require Import ZArith Ascii.
Local Open Scope Z_scope.

(** ** Attribute values and attribute dicts *)

Inductive attr :=
  | AInt (z : Z)
  | AStr (s : string)
  | ANone.

#[global] Instance attr_eq_dec : EqDecision attr.
Proof. solve_decision. Defined.

(** Python's [str] on an attribute value. *)
Definition attr_str (a : attr) : string :=
  match a with
  | AInt z => pretty z
  | AStr s => s
  | ANone => "None"
  end.

Abbreviation props := (gmap string attr).

(** ** The networkx [DiGraph] *)

Record DiGraph := mkDiGraph {
  dg_nodes : gmap Z props;
  dg_edges : gmap (Z * Z) props;
}.

Definition empty_digraph : DiGraph := mkDiGraph ∅ ∅.

(** [n in G.nodes] *)
Definition has_node (g : DiGraph) (n : Z) : bool :=
  bool_decide (is_Some (dg_nodes g !! n)).

(** [G.has_edge(u, v)] *)
Definition has_edge (g : DiGraph) (u v : Z) : bool :=
  bool_decide (is_Some (dg_edges g !! (u, v))).

(** [G.add_node(n, **attr)]: a new node gets a fresh dict; either way the
    dict is [update]d with [attr] (the new keys win). *)
Definition nx_add_node (n : Z) (attrs : props) (g : DiGraph) : DiGraph :=
  mkDiGraph (<[n := attrs ∪ default ∅ (dg_nodes g !! n)]> (dg_nodes g))
            (dg_edges g).

(** Node creation done by [G.add_edge] for a missing endpoint. *)
Definition ensure_node (n : Z) (ns : gmap Z props) : gmap Z props :=
  match ns !! n with
  | Some _ => ns
  | None => <[n := ∅]> ns
  end.

(** [G.add_edge(u, v)] without attributes: missing endpoints are created
    with empty dicts; the edge dict is created empty if absent and is
    otherwise updated with no keys. *)
Definition nx_add_edge (u v : Z) (g : DiGraph) : DiGraph :=
  mkDiGraph (ensure_node v (ensure_node u (dg_nodes g)))
            (<[(u, v) := default ∅ (dg_edges g !! (u, v))]> (dg_edges g)).

(** [G[u][v][key] = val]: writes into the existing edge dict (the callers
    below only do this on an edge that exists). *)
Definition nx_set_edge_attr (u v : Z) (key : string) (val : attr)
    (g : DiGraph) : DiGraph :=
  mkDiGraph (dg_nodes g) (alter (insert key val) (u, v) (dg_edges g)).

(** ** Graph mutation primitives (graphs.py, lines 25-53) *)

Definition add_cit_graph_node (graph : DiGraph) (node : Z)
    (node_props : props) : DiGraph :=
  if negb (has_node graph node) then nx_add_node node node_props graph
  else graph.

Definition add_cit_graph_edge (graph : DiGraph) (parent_node : Z)
    (parent_node_props : props) (child_node : Z) (child_node_props : props)
    (edge_weight : option Z) : DiGraph :=
  let g1 := if negb (has_node graph parent_node)
            then nx_add_node parent_node parent_node_props graph else graph in
  let g2 := if negb (has_node g1 child_node)
            then nx_add_node child_node child_node_props g1 else g1 in
  let g3 := if negb (has_edge g2 parent_node child_node)
            then nx_add_edge parent_node child_node g2 else g2 in
  match edge_weight with
  | Some w => nx_set_edge_attr parent_node child_node "weight" (AInt w) g3
  | None => g3
  end.

(** Weight attribute of an edge, if the edge and the attribute exist. *)
Definition edge_weight_of (g : DiGraph) (u v : Z) : option attr :=
  dg_edges g !! (u, v) ≫= (λ d, d !! "weight").

(** A sequence of [add_cit_graph_node] calls, in order. *)
Definition upsert_nodes (g : DiGraph) (ns : list (Z * props)) : DiGraph :=
  fold_left (λ g np, add_cit_graph_node g np.1 np.2) ns g.

(** The dict of edge (u, v) after [add_cit_graph_edge] with weight [w],
    from the dict [d] it had ([∅] for a new edge). *)
Definition edge_dict (w : option Z) (d : props) : props :=
  match w with Some z => <["weight" := AInt z]> d | None => d end.

(** Every edge joins two nodes of the graph. *)
Definition edges_closed (g : DiGraph) : Prop :=
  ∀ u v, is_Some (dg_edges g !! (u, v)) ->
    is_Some (dg_nodes g !! u) ∧ is_Some (dg_nodes g !! v).

(** ** Python exceptions *)

Inductive exn :=
  | ValueError (msg : string)
  | KeyError.

Section CitationGraph.

(** The [PaperInfo] type of litcitgraph.types: hashable, compared by value. *)
Context {PaperInfo : Type} `{EqDecision PaperInfo}.
(** [PaperInfo.scopus_id] and [PaperInfo.graph_properties_as_dict()]. *)
Variable scopus_id : PaperInfo -> Z.
Variable graph_properties_as_dict : PaperInfo -> props.
(** [get_from_scopus(identifier, id_type, iter_depth)], [None] when not
    found. *)
Variable get_from_scopus : string -> string -> Z -> option PaperInfo.
(** [get_refs_from_scopus(papers, iter_depth)]: (parent, child) pairs,
    [child] being [None] when it could not be resolved. *)
Variable get_refs_from_scopus :
  list PaperInfo -> Z -> list (PaperInfo * option PaperInfo).

(** A call to a collaborator, with the answer it gave. *)
Inductive event :=
  | EvGet (identifier id_type : string) (iter_depth : Z)
          (result : option PaperInfo)
  | EvRefs (papers : list PaperInfo) (iter_depth : Z)
           (result : list (PaperInfo * option PaperInfo)).

(** A [CitationGraph] object ([DiGraph] plus the attributes set in
    [__init__]); [use_doi] is [None] while the attribute is unset.  A
    [frozenset]/[set] of [PaperInfo] is a duplicate-free list.  [trace] is
    the list of collaborator calls made so far, oldest first. *)
Record CitationGraph := mkCG {
  graph : DiGraph;
  name : string;
  use_doi : option bool;
  iter_depth : Z;
  papers_by_iter_depth : gmap Z (list PaperInfo);
  retrievals_total : Z;
  retrievals_failed : Z;
  trace : list event;
}.

(** [CitationGraph()] *)
Definition new_citation_graph (nm : string) : CitationGraph :=
  mkCG empty_digraph nm None 0 ∅ 0 0 [].

Definition fresh : CitationGraph := new_citation_graph "CitationGraph".

(** Field updates. *)
Definition set_graph (g : DiGraph) (s : CitationGraph) : CitationGraph :=
  mkCG g (name s) (use_doi s) (iter_depth s) (papers_by_iter_depth s)
    (retrievals_total s) (retrievals_failed s) (trace s).
Definition set_use_doi (b : bool) (s : CitationGraph) : CitationGraph :=
  mkCG (graph s) (name s) (Some b) (iter_depth s) (papers_by_iter_depth s)
    (retrievals_total s) (retrievals_failed s) (trace s).
Definition set_iter_depth (d : Z) (s : CitationGraph) : CitationGraph :=
  mkCG (graph s) (name s) (use_doi s) d (papers_by_iter_depth s)
    (retrievals_total s) (retrievals_failed s) (trace s).
Definition set_papers (d : Z) (ps : list PaperInfo) (s : CitationGraph)
    : CitationGraph :=
  mkCG (graph s) (name s) (use_doi s) (iter_depth s)
    (<[d := ps]> (papers_by_iter_depth s))
    (retrievals_total s) (retrievals_failed s) (trace s).
Definition incr_total (s : CitationGraph) : CitationGraph :=
  mkCG (graph s) (name s) (use_doi s) (iter_depth s) (papers_by_iter_depth s)
    (retrievals_total s + 1) (retrievals_failed s) (trace s).
Definition incr_failed (s : CitationGraph) : CitationGraph :=
  mkCG (graph s) (name s) (use_doi s) (iter_depth s) (papers_by_iter_depth s)
    (retrievals_total s) (retrievals_failed s + 1) (trace s).
Definition record (e : event) (s : CitationGraph) : CitationGraph :=
  mkCG (graph s) (name s) (use_doi s) (iter_depth s) (papers_by_iter_depth s)
    (retrievals_total s) (retrievals_failed s) (trace s ++ [e]).

(** [set.add] after the [not in] test of the source. *)
Definition set_add (p : PaperInfo) (s : list PaperInfo) : list PaperInfo :=
  s ++ [p].

(** Result of a method: normal return, or an exception raised in the
    state reached at the raise. *)
Inductive outcome :=
  | Ok (s : CitationGraph)
  | Raised (e : exn) (s : CitationGraph).

(** *** [__initialise] (lines 127-176) *)

(** Body of the [for identifier in ids] loop. *)
Definition init_step (id_type : string)
    (st : CitationGraph * list PaperInfo) (identifier : string)
    : CitationGraph * list PaperInfo :=
  let '(s, papers_init) := st in
  let paper_info := get_from_scopus identifier id_type (iter_depth s) in
  let s := record (EvGet identifier id_type (iter_depth s) paper_info) s in
  let s := incr_total s in
  match paper_info with
  | None => (incr_failed s, papers_init)
  | Some p =>
      let s := set_graph (add_cit_graph_node (graph s) (scopus_id p)
                            (graph_properties_as_dict p)) s in
      if bool_decide (p ∉ papers_init) then (s, set_add p papers_init)
      else (s, papers_init)
  end.

Definition initialise (ids : list string) (use_doi : bool)
    (s : CitationGraph) : CitationGraph :=
  let s := set_use_doi use_doi s in
  let id_type := if use_doi then "doi" else "eid" in
  let '(s, papers_init) := fold_left (init_step id_type) ids (s, []) in
  set_papers (iter_depth s) papers_init s.

(** *** [__iterate] (lines 178-207) *)

(** Body of the [for parent, child in references] loop. *)
Definition iter_step (st : CitationGraph * list PaperInfo)
    (pc : PaperInfo * option PaperInfo) : CitationGraph * list PaperInfo :=
  let '(s, papers_iteration) := st in
  let '(parent, child) := pc in
  let s := incr_total s in
  match child with
  | None => (incr_failed s, papers_iteration)
  | Some c =>
      let papers_iteration :=
        if bool_decide (c ∉ papers_iteration)
           && negb (has_node (graph s) (scopus_id c))
        then set_add c papers_iteration else papers_iteration in
      (set_graph (add_cit_graph_edge (graph s) (scopus_id parent)
                    (graph_properties_as_dict parent) (scopus_id c)
                    (graph_properties_as_dict c) None) s,
       papers_iteration)
  end.

Definition iterate (s : CitationGraph) : outcome :=
  let target_iter_depth := iter_depth s + 1 in
  match papers_by_iter_depth s !! iter_depth s with
  | None => Raised KeyError s
  | Some papers =>
      let references := get_refs_from_scopus papers target_iter_depth in
      let s := record (EvRefs papers target_iter_depth references) s in
      let '(s, papers_iteration) := fold_left iter_step references (s, []) in
      let s := set_iter_depth target_iter_depth s in
      Ok (set_papers (iter_depth s) papers_iteration s)
  end.

(** *** [build_from_ids] (lines 209-233) *)

(** [for it in range(n): self.__iterate()] *)
Fixpoint iterate_n (n : nat) (s : CitationGraph) : outcome :=
  match n with
  | O => Ok s
  | S n =>
      match iterate s with
      | Ok s' => iterate_n n s'
      | Raised e s' => Raised e s'
      end
  end.

Definition build_from_ids (ids : list string) (use_doi : bool)
    (target_iter_depth : Z) (s : CitationGraph) : outcome :=
  if target_iter_depth <? 0
  then Raised (ValueError "Target depth must be non-negative!") s
  else iterate_n (Z.to_nat target_iter_depth) (initialise ids use_doi s).

(** Successful and failed resolutions recorded in a trace: a seed lookup
    that returned a paper, and each resolved child of a reference list. *)
Definition event_successes (e : event) : Z :=
  match e with
  | EvGet _ _ _ r => if r then 1 else 0
  | EvRefs _ _ res => Z.of_nat (length (filter (λ pc, is_Some pc.2) res))
  end.

Definition event_failures (e : event) : Z :=
  match e with
  | EvGet _ _ _ r => if r then 0 else 1
  | EvRefs _ _ res => Z.of_nat (length (filter (λ pc, pc.2 = None) res))
  end.

Definition successes (tr : list event) : Z :=
  fold_right (λ e acc, event_successes e + acc) 0 tr.
Definition failures (tr : list event) : Z :=
  fold_right (λ e acc, event_failures e + acc) 0 tr.

(** The papers a collaborator call returned: the resolved seed, or the
    parents and resolved children of a reference list. *)
Definition event_papers (e : event) : list PaperInfo :=
  match e with
  | EvGet _ _ _ r => match r with Some p => [p] | None => [] end
  | EvRefs _ _ res =>
      flat_map (λ pc, pc.1 :: match pc.2 with Some c => [c] | None => [] end) res
  end.

Definition returned_papers (tr : list event) : list PaperInfo :=
  flat_map event_papers tr.

(** Node and edge provenance: every node dict is the property dict of a
    paper a collaborator returned, with that paper's id as key, and every
    edge is a (parent, resolved child) pair of a returned reference list. *)
Definition provenance (s : CitationGraph) : Prop :=
  (∀ n d, dg_nodes (graph s) !! n = Some d ->
     ∃ p, p ∈ returned_papers (trace s) ∧ scopus_id p = n ∧
          d = graph_properties_as_dict p) ∧
  (∀ u v, is_Some (dg_edges (graph s) !! (u, v)) ->
     ∃ ps d refs p c, EvRefs ps d refs ∈ trace s ∧ (p, Some c) ∈ refs ∧
       scopus_id p = u ∧ scopus_id c = v).

(** The counter invariant: every lookup is counted once in
    [retrievals_total], and the failed ones in [retrievals_failed]. *)
Definition counters_consistent (s : CitationGraph) : Prop :=
  retrievals_total s = retrievals_failed s + successes (trace s) ∧
  retrievals_failed s = failures (trace s).

(** Fields that the loop bodies of [__initialise] and [__iterate] do not
    touch. *)
Definition same_meta (s s' : CitationGraph) : Prop :=
  name s' = name s ∧ use_doi s' = use_doi s ∧ iter_depth s' = iter_depth s ∧
  papers_by_iter_depth s' = papers_by_iter_depth s.

(** The keys of [papers_by_iter_depth] are exactly 0 .. [iter_depth]. *)
Definition keys_contiguous (s : CitationGraph) : Prop :=
  0 <= iter_depth s ∧
  ∀ x, is_Some (papers_by_iter_depth s !! x) <-> 0 <= x <= iter_depth s.

(** Every paper of a frontier set is a node of the graph. *)
Definition frontier_nodes (s : CitationGraph) : Prop :=
  ∀ d ps p, papers_by_iter_depth s !! d = Some ps -> p ∈ ps ->
    has_node (graph s) (scopus_id p) = true.

(** No [scopus_id] is in the frontier sets of two different depths. *)
Definition frontier_disjoint (s : CitationGraph) : Prop :=
  ∀ d1 d2 ps1 ps2 p1 p2, d1 ≠ d2 ->
    papers_by_iter_depth s !! d1 = Some ps1 ->
    papers_by_iter_depth s !! d2 = Some ps2 ->
    p1 ∈ ps1 -> p2 ∈ ps2 -> scopus_id p1 ≠ scopus_id p2.

(** *** [transform_graphistry] (lines 112-125)

    Here the node attribute dicts are mutable objects: they live in a store
    and a graph object refers to them by location, so that the sharing
    created or avoided by [copy.deepcopy] is visible.  A location is a pair
    (allocation generation, node key); [deepcopy] allocates the generation
    [next_gen].  Edge dicts and the other attributes are not mutated by the
    export and stay values. *)

Definition loc := (nat * Z)%type.

Record Store := mkStore {
  heap : gmap loc props;
  next_gen : nat;
}.

(** A graph object: node key to the location of its attribute dict, the
    edge dicts, and the remaining attributes (the [graph] field of
    [o_meta] is not used: [view] rebuilds it). *)
Record ObjGraph := mkOG {
  o_nodes : gmap Z loc;
  o_edges : gmap (Z * Z) props;
  o_meta : CitationGraph;
}.

(** The value of a graph object in a store. *)
Definition view (st : Store) (o : ObjGraph) : CitationGraph :=
  set_graph (mkDiGraph (omap (λ l, heap st !! l) (o_nodes o)) (o_edges o))
    (o_meta o).

(** [copy.deepcopy]: every node dict is copied to a fresh location. *)
Definition deepcopy (st : Store) (o : ObjGraph) : Store * ObjGraph :=
  let gen := next_gen st in
  let copies := kmap (pair gen) (omap (λ l, heap st !! l) (o_nodes o)) in
  (mkStore (copies ∪ heap st) (S gen),
   mkOG (map_imap (λ n _, Some (gen, n)) (o_nodes o)) (o_edges o) (o_meta o)).

(** The body of the loop, on the dict at location [l]. *)
Definition export_node (h : gmap loc props) (l : loc)
    : exn + gmap loc props :=
  match h !! l with
  | None => inl KeyError
  | Some d =>
      match d !! "scopus_id" with
      | None => inl KeyError
      | Some sid =>
          (* nodes[node]['scopus_id'] = str(nodes[node]['scopus_id']) *)
          let d := <["scopus_id" := AStr (attr_str sid)]> d in
          let h := <[l := d]> h in
          match d !! "title" with
          | None => inl KeyError
          | Some t =>
              (* nodes[node]['paper_title'] = nodes[node]['title'] *)
              let d := <["paper_title" := t]> d in
              let h := <[l := d]> h in
              (* nodes[node].pop('title', None) *)
              inr (<[l := delete "title" d]> h)
          end
      end
  end.

Fixpoint export_loop (ns : list (Z * loc)) (h : gmap loc props)
    : exn + gmap loc props :=
  match ns with
  | [] => inr h
  | (_, l) :: ns =>
      match export_node h l with
      | inl e => inl e
      | inr h => export_loop ns h
      end
  end.

Inductive export_outcome :=
  | ExOk (st : Store) (o : ObjGraph)
  | ExRaised (e : exn) (st : Store).

Definition transform_graphistry (st : Store) (self : ObjGraph)
    : export_outcome :=
  let '(st, export_graph) := deepcopy st self in
  match export_loop (map_to_list (o_nodes export_graph)) (heap st) with
  | inl e => ExRaised e st
  | inr h => ExOk (mkStore h (next_gen st)) export_graph
  end.

(** The dict of a node after the export, as the spec describes it. *)
Definition exported_props (d : props) : props :=
  match d !! "scopus_id", d !! "title" with
  | Some sid, Some t =>
      delete "title"
        (<["paper_title" := t]> (<["scopus_id" := AStr (attr_str sid)]> d))
  | _, _ => d
  end.

(** Every location of [o] is allocated, in a generation before
    [next_gen]. *)
Definition store_wf (st : Store) (o : ObjGraph) : Prop :=
  ∀ n l, o_nodes o !! n = Some l ->
    (l.1 < next_gen st)%nat ∧ is_Some (heap st !! l).

End CitationGraph.

(** *** [CitationGraph.prep_save] (lines 85-93)

    With the parts of [pathlib] (CPython 3.11, POSIX flavour) that it uses:
    [Path(str)], [PurePath.name], [PurePath.suffix], [PurePath.stem] and
    [PurePath.with_suffix].  On POSIX the drive is always empty. *)

(** A [PurePath]: its root ("", "/" or "//") and its [_parts], which start
    with the root when there is one. *)
Record PurePath := mkPath {
  path_root : string;
  path_parts : list string;
}.

#[global] Instance PurePath_eq_dec : EqDecision PurePath.
Proof. solve_decision. Defined.

(** [c in s] for a character. *)
Fixpoint str_has (c : Ascii.ascii) (s : string) : bool :=
  match s with
  | EmptyString => false
  | String a s => bool_decide (a = c) || str_has c s
  end.

(** [s.split(sep)]. *)
Fixpoint str_split (sep : Ascii.ascii) (s : string) : list string :=
  match s with
  | EmptyString => [""]
  | String a s =>
      let rest := str_split sep s in
      if bool_decide (a = sep) then "" :: rest
      else match rest with
           | x :: r => String a x :: r
           | [] => [String a ""]
           end
  end.

(** [s.lstrip(c)] for one character. *)
Fixpoint str_lstrip (c : Ascii.ascii) (s : string) : string :=
  match s with
  | String a s' => if bool_decide (a = c) then str_lstrip c s' else s
  | EmptyString => EmptyString
  end.

(** [s.rfind(c)]: the last index of [c], or -1. *)
Fixpoint str_rfind (c : Ascii.ascii) (s : string) : Z :=
  match s with
  | EmptyString => -1
  | String a s =>
      let r := str_rfind c s in
      if 0 <=? r then r + 1 else if bool_decide (a = c) then 0 else -1
  end.

(** [s[:n]] and [s[n:]] for [0 <= n]. *)
Fixpoint str_take (n : nat) (s : string) : string :=
  match n, s with
  | O, _ => EmptyString
  | _, EmptyString => EmptyString
  | S n, String a s => String a (str_take n s)
  end.

Fixpoint str_drop (n : nat) (s : string) : string :=
  match n, s with
  | O, _ => s
  | _, EmptyString => EmptyString
  | S n, String a s => str_drop n s
  end.

(** [_PosixFlavour.splitroot]: drive, root and the rest. *)
Definition splitroot (part : string) : string * string * string :=
  match part with
  | String a _ =>
      if bool_decide (a = "/"%char) then
        let stripped_part := str_lstrip "/"%char part in
        if (String.length part - String.length stripped_part =? 2)%nat
        then ("", "//", stripped_part)
        else ("", "/", stripped_part)
      else ("", "", part)
  | EmptyString => ("", "", part)
  end.

(** [x and x != '.'] *)
Definition keep_part (x : string) : bool :=
  bool_decide (x ≠ "") && bool_decide (x ≠ ".").

(** [Path(s)] for one string: [_parse_args] then [parse_parts([s])]. *)
Definition path_of_str (part : string) : PurePath :=
  if bool_decide (part = "") then mkPath "" []
  else
    let '(drv, root, rel) := splitroot part in
    let parsed :=
      if str_has "/"%char rel then filter (λ x, keep_part x = true) (str_split "/"%char rel)
      else if keep_part rel then [rel] else [] in
    if bool_decide (drv +:+ root ≠ "")
    then mkPath root ((drv +:+ root) :: parsed)
    else mkPath root parsed.

(** [PurePath.name] *)
Definition path_name (p : PurePath) : string :=
  if (length (path_parts p) =? (if bool_decide (path_root p ≠ "") then 1 else 0))%nat
  then ""
  else default "" (last (path_parts p)).

(** [PurePath.suffix] *)
Definition path_suffix (p : PurePath) : string :=
  let name := path_name p in
  let i := str_rfind "."%char name in
  if (0 <? i) && (i <? Z.of_nat (String.length name) - 1)
  then str_drop (Z.to_nat i) name else "".

(** [PurePath.stem] *)
Definition path_stem (p : PurePath) : string :=
  let name := path_name p in
  let i := str_rfind "."%char name in
  if (0 <? i) && (i <? Z.of_nat (String.length name) - 1)
  then str_take (Z.to_nat i) name else name.

(** The two [ValueError]s of [with_suffix]. *)
Inductive path_error :=
  | InvalidSuffix (suffix : string)
  | EmptyName (p : PurePath).

(** [PurePath.with_suffix] ([altsep] is [None] on POSIX). *)
Definition with_suffix (p : PurePath) (suffix : string)
    : path_error + PurePath :=
  if str_has "/"%char suffix then inl (InvalidSuffix suffix)
  else if (bool_decide (suffix ≠ "") && negb (String.prefix "." suffix))
          || bool_decide (suffix = ".")
  then inl (InvalidSuffix suffix)
  else
    let name := path_name p in
    if bool_decide (name = "") then inl (EmptyName p)
    else
      let old_suffix := path_suffix p in
      let name :=
        if bool_decide (old_suffix = "") then name +:+ suffix
        (* name[:-len(old_suffix)] *)
        else str_take (String.length name - String.length old_suffix) name
             +:+ suffix in
      inr (mkPath (path_root p) (removelast (path_parts p) ++ [name])).

(** The argument of [prep_save]: a [str] or a [Path]. *)
Definition to_path (path : string + PurePath) : PurePath :=
  match path with inl s => path_of_str s | inr p => p end.

(** [CitationGraph.prep_save(path, suffix)]; the default suffix is
    '.pkl'. *)
Definition prep_save (path : string + PurePath) (suffix : string)
    : path_error + PurePath :=
  with_suffix (to_path path) suffix.

(** A suffix made of a dot and a non-empty extension without dots or
    slashes, like the default '.pkl'. *)
Definition dotted_suffix (sfx : string) : bool :=
  match sfx with
  | String a t => bool_decide (a = "."%char) && bool_decide (t ≠ "") &&
                  negb (str_has "."%char t) && negb (str_has "/"%char t)
  | EmptyString => false
  end.

(** * A concrete instance

    Papers with an integer Scopus id and a title; seed "id1" resolves to
    paper 1, "id2" to paper 2, any other identifier fails.  Paper 1 cites
    itself, paper 3 and an unresolvable paper; paper 3 cites paper 2. *)

Record demo_paper := mkPaper { pid : Z; ptitle : string }.

#[global] Instance demo_paper_eq_dec : EqDecision demo_paper.
Proof. solve_decision. Defined.

Definition demo_props (p : demo_paper) : props :=
  {[ "scopus_id" := AInt (pid p); "title" := AStr (ptitle p) ]}.

Definition paper1 := mkPaper 1 "A".
Definition paper2 := mkPaper 2 "B".
Definition paper3 := mkPaper 3 "C".

Definition demo_get (i ty : string) (d : Z) : option demo_paper :=
  if String.eqb i "id1" then Some paper1
  else if String.eqb i "id2" then Some paper2 else None.

Definition demo_refs (ps : list demo_paper) (d : Z)
    : list (demo_paper * option demo_paper) :=
  flat_map (λ p,
    if pid p =? 1 then [(p, Some paper1); (p, Some paper3); (p, None)]
    else if pid p =? 3 then [(p, Some paper2)] else []) ps.

(** Every paper cites exactly itself. *)
Definition demo_self_refs (ps : list demo_paper) (d : Z)
    : list (demo_paper * option demo_paper) :=
  map (λ p, (p, Some p)) ps.

Definition demo_build (ids : list string) (b : bool) (k : Z)
    : @outcome demo_paper :=
  build_from_ids pid demo_props demo_get demo_refs ids b k fresh.

Definition outcome_state (o : @outcome demo_paper) : CitationGraph :=
  match o with Ok s | Raised _ s => s end.

(** The graph built from the seeds "id1" (resolves) and "idx" (fails). *)
Definition demo_state (k : Z) : CitationGraph :=
  outcome_state (demo_build ["id1"; "idx"] true k).

(** A graph object with one node, whose dict is at location (0, 1). *)
Definition demo_store : Store :=
  mkStore {[ (0%nat, 1) := demo_props paper1 ]} 1.

Definition demo_obj : @ObjGraph demo_paper :=
  mkOG {[ 1 := (0%nat, 1) ]} ∅ fresh.

(** [demo_state 1] resumed with the seed "id2" for one more level. *)
Definition demo_resume : @outcome demo_paper :=
  build_from_ids pid demo_props demo_get demo_refs ["id2"] false 1 (demo_state 1).

(** A store whose only node dict has no "title". *)
Definition demo_bad_store : Store :=
  mkStore {[ (0%nat, 1) := {[ "scopus_id" := AInt 1 ]} ]} 1.

(** The store and graph object of an export result. *)
Definition export_store (r : @export_outcome demo_paper) : Store :=
  match r with ExOk st _ | ExRaised _ st => st end.

Definition export_obj (r : @export_outcome demo_paper) : @ObjGraph demo_paper :=
  match r with ExOk _ o => o | ExRaised _ _ => demo_obj end.

(** * Proofs *)

(** ** Graph mutation primitives *)

Ltac unfold_prims :=
  unfold add_cit_graph_edge, add_cit_graph_node, has_node, has_edge,
    nx_add_node, nx_add_edge, nx_set_edge_attr, ensure_node,
    edge_weight_of in *.

Lemma add_cit_graph_node_dom (g : DiGraph) n p :
  dom (dg_nodes (add_cit_graph_node g n p)) = {[n]} ∪ dom (dg_nodes g).
Proof.
  unfold_prims. case_bool_decide as Hn; simpl.
  - destruct Hn as [d Hd]. apply elem_of_dom_2 in Hd. set_solver.
  - apply dom_insert_L.
Qed.

Lemma add_cit_graph_node_keep (g : DiGraph) n p m d :
  dg_nodes g !! m = Some d -> dg_nodes (add_cit_graph_node g n p) !! m = Some d.
Proof.
  intros Hm. unfold_prims. case_bool_decide as Hn; simpl; [done|].
  destruct (decide (n = m)) as [->|Hne].
  - exfalso. apply Hn. by eexists.
  - by rewrite lookup_insert_ne.
Qed.

Lemma add_cit_graph_node_edges (g : DiGraph) n p :
  dg_edges (add_cit_graph_node g n p) = dg_edges g.
Proof. unfold_prims. by case_bool_decide. Qed.

Lemma add_cit_graph_node_new (g : DiGraph) n p :
  dg_nodes g !! n = None -> dg_nodes (add_cit_graph_node g n p) !! n = Some p.
Proof.
  intros Hn. unfold_prims. rewrite bool_decide_false; [|rewrite Hn; by intros [? ?]].
  simpl. rewrite lookup_insert_eq, Hn. simpl. by rewrite map_union_empty.
Qed.

Lemma upsert_nodes_dom (g : DiGraph) ns :
  dom (dg_nodes (upsert_nodes g ns)) = dom (dg_nodes g) ∪ list_to_set ns.*1.
Proof.
  revert g. induction ns as [|[n p] ns IH]; intros g; simpl.
  - set_solver.
  - unfold upsert_nodes in *. simpl. rewrite IH, add_cit_graph_node_dom. set_solver.
Qed.

Lemma upsert_nodes_keep (g : DiGraph) ns m d :
  dg_nodes g !! m = Some d -> dg_nodes (upsert_nodes g ns) !! m = Some d.
Proof.
  revert g. induction ns as [|[n p] ns IH]; intros g Hm; simpl; [done|].
  unfold upsert_nodes in *. simpl. apply IH. by apply add_cit_graph_node_keep.
Qed.

(** C4. Node upsert idempotence: after any sequence of [add_cit_graph_node]
    calls on an empty graph the number of nodes is the number of distinct
    identifiers seen (on any graph: its node set grows by exactly the
    identifiers seen); a node that is already present keeps its stored
    attributes, whatever properties a later call passes, and a call for an
    existing node leaves the graph unchanged. *)
Theorem add_cit_graph_node_upsert :
  (∀ ns : list (Z * props),
     size (dg_nodes (upsert_nodes empty_digraph ns))
     = size (list_to_set ns.*1 : gset Z)) ∧
  (∀ (g : DiGraph) (ns : list (Z * props)),
     dom (dg_nodes (upsert_nodes g ns)) = dom (dg_nodes g) ∪ list_to_set ns.*1) ∧
  (∀ (g : DiGraph) (ns : list (Z * props)) m d,
     dg_nodes g !! m = Some d -> dg_nodes (upsert_nodes g ns) !! m = Some d) ∧
  (∀ (g : DiGraph) n p,
     has_node g n = true -> add_cit_graph_node g n p = g).
Proof.
  split; [|split; [|split]].
  - intros ns. rewrite <- size_dom, upsert_nodes_dom. simpl.
    rewrite dom_empty_L. f_equal. set_solver.
  - apply upsert_nodes_dom.
  - apply upsert_nodes_keep.
  - intros g n p H. unfold add_cit_graph_node. by rewrite H.
Qed.

Lemma add_cit_graph_node_lookup (g : DiGraph) n p x :
  dg_nodes (add_cit_graph_node g n p) !! x =
  if decide (x = n) then Some (default p (dg_nodes g !! n)) else dg_nodes g !! x.
Proof.
  unfold add_cit_graph_node, has_node, nx_add_node.
  destruct (dg_nodes g !! n) as [d|] eqn:Hn.
  - rewrite bool_decide_true by (by eexists). simpl.
    case_decide; subst; done.
  - rewrite bool_decide_false by (by intros [? ?]). simpl.
    case_decide; subst.
    + rewrite lookup_insert_eq. simpl. by rewrite map_union_empty.
    + by rewrite lookup_insert_ne.
Qed.

Lemma add_cit_graph_edge_eq (g : DiGraph) p pp c cp w :
  add_cit_graph_edge g p pp c cp w =
  mkDiGraph (dg_nodes (add_cit_graph_node (add_cit_graph_node g p pp) c cp))
    (<[(p, c) := edge_dict w (default ∅ (dg_edges g !! (p, c)))]> (dg_edges g)).
Proof.
  unfold add_cit_graph_edge.
  change (if negb (has_node g p) then nx_add_node p pp g else g)
    with (add_cit_graph_node g p pp).
  set (g1 := add_cit_graph_node g p pp).
  change (if negb (has_node g1 c) then nx_add_node c cp g1 else g1)
    with (add_cit_graph_node g1 c cp).
  set (g2 := add_cit_graph_node g1 c cp).
  assert (Hp : is_Some (dg_nodes g2 !! p)).
  { subst g2 g1. rewrite !add_cit_graph_node_lookup.
    repeat case_decide; subst; try congruence; by eexists. }
  assert (Hc : is_Some (dg_nodes g2 !! c)).
  { subst g2 g1. rewrite !add_cit_graph_node_lookup.
    repeat case_decide; subst; try congruence; by eexists. }
  assert (He : dg_edges g2 = dg_edges g).
  { subst g2 g1. by rewrite !add_cit_graph_node_edges. }
  unfold has_edge, nx_add_edge, ensure_node.
  destruct Hp as [dp Hp]; destruct Hc as [dc Hc].
  rewrite ?He, ?Hp, ?Hc.
  case_bool_decide as Hpc; simpl; rewrite ?Hp, ?Hc.
  - destruct Hpc as [d Hd]. rewrite Hd. simpl.
    destruct w; unfold nx_set_edge_attr; simpl; f_equal; rewrite ?He.
    + apply map_eq. intros e. destruct (decide (e = (p, c))) as [->|Hne].
      * by rewrite lookup_alter_eq, lookup_insert_eq, Hd.
      * by rewrite lookup_alter_ne, lookup_insert_ne.
    + destruct g2 as [n2 e2]; simpl in *; subst e2. by rewrite insert_id.
  - destruct (dg_edges g !! (p, c)) eqn:Hd; [exfalso; apply Hpc; by eexists|]. simpl.
    destruct w; unfold nx_set_edge_attr; simpl; f_equal; rewrite ?He.
    + apply map_eq. intros e. destruct (decide (e = (p, c))) as [->|Hne].
      * by rewrite lookup_alter_eq, !lookup_insert_eq.
      * by rewrite lookup_alter_ne, !lookup_insert_ne.

Qed.

Lemma has_node_true (g : DiGraph) m :
  has_node g m = true <-> is_Some (dg_nodes g !! m).
Proof. unfold has_node. apply bool_decide_eq_true. Qed.

Lemma has_node_add_cit_graph_node (g : DiGraph) n p m :
  has_node (add_cit_graph_node g n p) m = true <-> has_node g m = true ∨ m = n.
Proof.
  rewrite !has_node_true, add_cit_graph_node_lookup.
  case_decide as Hx.
  - subst. split; [intros _; by right|intros _; by eexists].
  - split; [by left|intros [H|H]; [done|congruence]].
Qed.

Lemma has_node_add_cit_graph_edge (g : DiGraph) p pp c cp w m :
  has_node (add_cit_graph_edge g p pp c cp w) m = true <->
  has_node g m = true ∨ m = p ∨ m = c.
Proof.
  rewrite add_cit_graph_edge_eq. unfold has_node at 1. simpl.
  rewrite bool_decide_eq_true.
  change (is_Some (dg_nodes (add_cit_graph_node (add_cit_graph_node g p pp) c cp) !! m))
    with (has_node (add_cit_graph_node (add_cit_graph_node g p pp) c cp) m = true)
    || rewrite <- has_node_true.
  rewrite !has_node_add_cit_graph_node. tauto.
Qed.

Lemma edge_weight_add_cit_graph_edge_None (g : DiGraph) p pp c cp u v :
  edge_weight_of (add_cit_graph_edge g p pp c cp None) u v = edge_weight_of g u v.
Proof.
  unfold edge_weight_of. rewrite add_cit_graph_edge_eq. simpl.
  destruct (decide ((u, v) = (p, c))) as [E|E].
  - rewrite E, lookup_insert_eq. simpl.
    destruct (dg_edges g !! (p, c)); simpl; [done|]. by rewrite lookup_empty.
  - by rewrite lookup_insert_ne.
Qed.

Lemma add_cit_graph_edge_has_edge (g : DiGraph) p pp c cp w :
  is_Some (dg_edges (add_cit_graph_edge g p pp c cp w) !! (p, c)).
Proof. rewrite add_cit_graph_edge_eq. simpl. rewrite lookup_insert_eq. by eexists. Qed.

(** C5. Edge upsert: [add_cit_graph_edge] creates a missing endpoint with
    the given properties and leaves an existing one as it is; it adds the
    pair (parent, child) to the edge set, so repeating it never yields a
    second edge, and a repeated weightless call changes nothing; a non-null
    weight is written over any previous one; with no weight the dict of an
    existing edge is unchanged and a new edge gets an empty dict (no
    weight). *)
Theorem add_cit_graph_edge_upsert (g : DiGraph) p pp c cp (w : option Z) :
  let g' := add_cit_graph_edge g p pp c cp w in
  dg_nodes g' !! p = Some (default pp (dg_nodes g !! p)) ∧
  (c ≠ p -> dg_nodes g' !! c = Some (default cp (dg_nodes g !! c))) ∧
  (∀ x, x ≠ p -> x ≠ c -> dg_nodes g' !! x = dg_nodes g !! x) ∧
  dom (dg_edges g') = {[(p, c)]} ∪ dom (dg_edges g) ∧
  (∀ e, e ≠ (p, c) -> dg_edges g' !! e = dg_edges g !! e) ∧
  (∀ pp2 cp2, add_cit_graph_edge g' p pp2 c cp2 None = g') ∧
  (∀ z, w = Some z ->
     dg_edges g' !! (p, c)
     = Some (<["weight" := AInt z]> (default ∅ (dg_edges g !! (p, c)))) ∧
     edge_weight_of g' p c = Some (AInt z)) ∧
  (w = None ->
     dg_edges g' !! (p, c) = Some (default ∅ (dg_edges g !! (p, c))) ∧
     edge_weight_of g' p c = edge_weight_of g p c).
Proof.
  intros g'.
  assert (Hn : ∀ x, dg_nodes g' !! x =
            if decide (x = c) then
              (if decide (c = p) then Some (default pp (dg_nodes g !! p))
               else Some (default cp (dg_nodes g !! c)))
            else if decide (x = p) then Some (default pp (dg_nodes g !! p))
            else dg_nodes g !! x).
  { intros x. subst g'. rewrite add_cit_graph_edge_eq. simpl.
    rewrite !add_cit_graph_node_lookup. repeat case_decide; subst; simpl; congruence. }
  assert (Hg' : g' = mkDiGraph (dg_nodes g')
            (<[(p, c) := edge_dict w (default ∅ (dg_edges g !! (p, c)))]> (dg_edges g))).
  { subst g'. by rewrite add_cit_graph_edge_eq. }
  split; [|split; [|split; [|split; [|split; [|split; [|split]]]]]].
  - rewrite Hn. repeat case_decide; subst; congruence.
  - intros Hcp. rewrite Hn. repeat case_decide; subst; congruence.
  - intros x Hxp Hxc. rewrite Hn. repeat case_decide; subst; congruence.
  - rewrite Hg'. simpl. apply dom_insert_L.
  - intros e He. rewrite Hg'. simpl. by rewrite lookup_insert_ne.
  - intros pp2 cp2. rewrite add_cit_graph_edge_eq.
    assert (Hp : has_node g' p = true).
    { unfold has_node. apply bool_decide_true. rewrite Hn.
      repeat case_decide; subst; try congruence; by eexists. }
    assert (Hc : has_node g' c = true).
    { unfold has_node. apply bool_decide_true. rewrite Hn.
      repeat case_decide; subst; try congruence; by eexists. }
    unfold add_cit_graph_node. rewrite Hp. simpl. rewrite Hc. simpl.
    rewrite Hg' at 3. rewrite Hg'. simpl. f_equal.
    rewrite lookup_insert_eq. simpl. by rewrite insert_insert_eq.
  - intros z ->. rewrite Hg'. unfold edge_weight_of. simpl.
    rewrite lookup_insert_eq. split; [done|]. simpl. by rewrite lookup_insert_eq.
  - intros ->. rewrite Hg'. unfold edge_weight_of. simpl.
    rewrite lookup_insert_eq. split; [done|]. simpl.
    by destruct (dg_edges g !! (p, c)).
Qed.

(** ** The build *)

Lemma fold_left_inv {A B} (f : A -> B -> A) (P : A -> Prop) (l : list B) a :
  (∀ a b, P a -> P (f a b)) -> P a -> P (fold_left f l a).
Proof. intros Hf. revert a. induction l as [|b l IH]; simpl; auto. Qed.

Section Build.

Context {PaperInfo : Type} `{EqDecision PaperInfo}.
Variable scopus_id : PaperInfo -> Z.
Variable graph_properties_as_dict : PaperInfo -> props.
Variable get_from_scopus : string -> string -> Z -> option PaperInfo.
Variable get_refs_from_scopus :
  list PaperInfo -> Z -> list (PaperInfo * option PaperInfo).

Local Abbreviation istep :=
  (init_step scopus_id graph_properties_as_dict get_from_scopus).
Local Abbreviation rstep := (iter_step scopus_id graph_properties_as_dict).
Local Abbreviation init :=
  (initialise scopus_id graph_properties_as_dict get_from_scopus).
Local Abbreviation iter :=
  (iterate scopus_id graph_properties_as_dict get_refs_from_scopus).
Local Abbreviation iter_n :=
  (iterate_n scopus_id graph_properties_as_dict get_refs_from_scopus).
Local Abbreviation build :=
  (build_from_ids scopus_id graph_properties_as_dict get_from_scopus
     get_refs_from_scopus).
Local Abbreviation CG := (@CitationGraph PaperInfo).

Arguments add_cit_graph_node : simpl never.
Arguments add_cit_graph_edge : simpl never.

Lemma same_meta_refl (s : CG) : same_meta s s.
Proof. by repeat split. Qed.

Lemma same_meta_trans (s1 s2 s3 : CG) :
  same_meta s1 s2 -> same_meta s2 s3 -> same_meta s1 s3.
Proof. intros (?&?&?&?) (?&?&?&?). repeat split; congruence. Qed.

Lemma init_step_meta ty (st : CG * list PaperInfo) i :
  same_meta st.1 (istep ty st i).1.
Proof.
  destruct st as [s acc]. unfold init_step.
  destruct (get_from_scopus i ty (iter_depth s)); simpl;
    [case_bool_decide|]; by repeat split.
Qed.

Lemma iter_step_meta (st : CG * list PaperInfo) pc :
  same_meta st.1 (rstep st pc).1.
Proof. destruct st as [s acc], pc as [p [c|]]; by repeat split. Qed.

Lemma init_loop_meta ty ids (s : CG) acc :
  same_meta s (fold_left (istep ty) ids (s, acc)).1.
Proof.
  apply (fold_left_inv _ (λ st, same_meta s st.1)); [|apply same_meta_refl].
  intros st i H. eapply same_meta_trans; [done|apply init_step_meta].
Qed.

Lemma iter_loop_meta refs (s : CG) acc :
  same_meta s (fold_left rstep refs (s, acc)).1.
Proof.
  apply (fold_left_inv _ (λ st, same_meta s st.1)); [|apply same_meta_refl].
  intros st pc H. eapply same_meta_trans; [done|apply iter_step_meta].
Qed.

Lemma initialise_eq (ids : list string) (b : bool) (s : CG) :
  let ty : string := if b then "doi" else "eid" in
  let st := fold_left (istep ty) ids (set_use_doi b s, []) in
  init ids b s = set_papers (iter_depth s) st.2 st.1.
Proof.
  intros ty st. unfold initialise. fold ty. fold st.
  destruct st as [s1 acc] eqn:E. simpl.
  pose proof (init_loop_meta ty ids (set_use_doi b s) []) as (_&_&Hd&_).
  fold st in Hd. rewrite E in Hd. simpl in Hd. by rewrite Hd.
Qed.

Lemma initialise_meta (ids : list string) (b : bool) (s : CG) :
  name (init ids b s) = name s ∧ use_doi (init ids b s) = Some b ∧
  iter_depth (init ids b s) = iter_depth s ∧
  ∃ acc, papers_by_iter_depth (init ids b s)
         = <[iter_depth s := acc]> (papers_by_iter_depth s).
Proof.
  rewrite initialise_eq. simpl.
  pose proof (init_loop_meta (if b then "doi" else "eid") ids
                (set_use_doi b s) []) as (Hn&Hu&Hd&Hp).
  simpl in *. rewrite Hn, Hu, Hd, Hp. eauto.
Qed.

Lemma iterate_eq (s : CG) papers :
  papers_by_iter_depth s !! iter_depth s = Some papers ->
  let refs := get_refs_from_scopus papers (iter_depth s + 1) in
  let st := fold_left rstep refs
              (record (EvRefs papers (iter_depth s + 1) refs) s, []) in
  iter s = Ok (set_papers (iter_depth s + 1) st.2
                 (set_iter_depth (iter_depth s + 1) st.1)).
Proof.
  intros Hp refs st. unfold iterate. rewrite Hp. fold refs. fold st.
  by destruct st as [s1 acc].
Qed.

Lemma iterate_Ok_meta (s s' : CG) :
  iter s = Ok s' ->
  name s' = name s ∧ use_doi s' = use_doi s ∧
  iter_depth s' = iter_depth s + 1 ∧
  ∃ acc, papers_by_iter_depth s'
         = <[iter_depth s + 1 := acc]> (papers_by_iter_depth s).
Proof.
  intros H. destruct (papers_by_iter_depth s !! iter_depth s) as [ps|] eqn:Hp.
  - rewrite (iterate_eq s ps Hp) in H. injection H as <-.
    match goal with
    | |- context [fold_left rstep ?refs (?s0, [])] =>
        pose proof (iter_loop_meta refs s0 []) as (Hn&Hu&Hd&Hq)
    end.
    simpl in *. rewrite Hn, Hu, Hq. eauto.
  - unfold iterate in H. rewrite Hp in H. discriminate.
Qed.

Lemma iterate_has_key (s : CG) :
  is_Some (papers_by_iter_depth s !! iter_depth s) -> ∃ s', iter s = Ok s'.
Proof. intros [ps Hp]. rewrite (iterate_eq s ps Hp). eauto. Qed.

Lemma iterate_n_inv (I : CG -> Prop) n (s : CG) :
  (∀ s, I s -> is_Some (papers_by_iter_depth s !! iter_depth s)) ->
  (∀ s s', I s -> iter s = Ok s' -> I s') ->
  I s -> ∃ s', iter_n n s = Ok s' ∧ I s'.
Proof.
  intros Hk Hp. revert s. induction n as [|n IH]; intros s Hs; simpl; [eauto|].
  destruct (iterate_has_key s (Hk s Hs)) as [s1 Hs1]. rewrite Hs1.
  apply IH. eauto.
Qed.

Lemma iterate_n_depth n (s s' : CG) :
  iter_n n s = Ok s' -> iter_depth s' = iter_depth s + Z.of_nat n.
Proof.
  revert s. induction n as [|n IH]; intros s H; simpl in H.
  - injection H as <-. lia.
  - destruct (iter s) as [s1|e s1] eqn:E; [|discriminate].
    apply IH in H. apply iterate_Ok_meta in E as (_&_&Hd&_). lia.
Qed.

Lemma keys_contiguous_iterate (s s' : CG) :
  keys_contiguous s -> iter s = Ok s' -> keys_contiguous s'.
Proof.
  intros [H0 Hk] H. apply iterate_Ok_meta in H as (_&_&Hd&acc&Hp).
  split; [lia|]. intros x. rewrite Hp, Hd, lookup_insert_is_Some', Hk. lia.
Qed.

Lemma keys_contiguous_init (ids : list string) (b : bool) :
  keys_contiguous (init ids b fresh).
Proof.
  destruct (initialise_meta ids b fresh) as (_&_&Hd&acc&Hp).
  split; [rewrite Hd; simpl; lia|]. intros x. rewrite Hp, Hd. simpl.
  rewrite lookup_insert_is_Some', lookup_empty. split.
  - intros [->|[? ?]]; [lia|discriminate].
  - intros Hx. left. lia.
Qed.

(** C8. Input validation: with a negative target depth [build_from_ids]
    raises [ValueError] in the state it was called in (no collaborator call
    recorded, nothing changed); with a non-negative one it returns
    normally. *)
Theorem build_from_ids_validation :
  (∀ ids b k (s : CG), k < 0 ->
     build_from_ids scopus_id graph_properties_as_dict get_from_scopus
       get_refs_from_scopus ids b k s
     = Raised (ValueError "Target depth must be non-negative!") s) ∧
  (∀ ids b k (s : CG), 0 <= k ->
     ∃ s', build_from_ids scopus_id graph_properties_as_dict get_from_scopus
             get_refs_from_scopus ids b k s = Ok s').
Proof.
  split.
  - intros ids b k s Hk. unfold build_from_ids.
    by rewrite (proj2 (Z.ltb_lt k 0) Hk).
  - intros ids b k s Hk. unfold build_from_ids.
    rewrite (proj2 (Z.ltb_ge k 0) Hk).
    destruct (iterate_n_inv (λ s, is_Some (papers_by_iter_depth s !! iter_depth s))
                (Z.to_nat k) (init ids b s)) as (s'&Hs'&_); [done| | |eauto].
    + intros s1 s2 _ H. apply iterate_Ok_meta in H as (_&_&->&acc&->).
      rewrite lookup_insert_eq. by eexists.
    + destruct (initialise_meta ids b s) as (_&_&->&acc&->).
      rewrite lookup_insert_eq. by eexists.
Qed.

(** C2. Depth contiguity: a build to depth [k >= 0] on a new graph ends with
    [iter_depth = k] and [papers_by_iter_depth] having exactly the keys
    0 .. k; initialisation keeps [iter_depth] and each expansion pass adds
    exactly 1 to it. *)
Theorem build_from_ids_depths :
  (∀ ids b k, 0 <= k ->
     ∃ s', build ids b k fresh = Ok s' ∧ iter_depth s' = k ∧
       ∀ x, is_Some (papers_by_iter_depth s' !! x) <-> 0 <= x <= k) ∧
  (∀ ids b (s : CG), iter_depth (init ids b s) = iter_depth s) ∧
  (∀ s s' : CG, iter s = Ok s' -> iter_depth s' = iter_depth s + 1).
Proof.
  split; [|split].
  - intros ids b k Hk. unfold build_from_ids.
    rewrite (proj2 (Z.ltb_ge k 0) Hk).
    destruct (iterate_n_inv keys_contiguous (Z.to_nat k) (init ids b fresh))
      as (s'&Hs'&H0&Hkeys).
    + intros s [H0 Hks]. apply Hks. lia.
    + intros s s' Hs H. by eapply keys_contiguous_iterate.
    + apply keys_contiguous_init.
    + exists s'. pose proof (iterate_n_depth _ _ _ Hs') as Hd.
      rewrite (proj1 (proj2 (proj2 (initialise_meta ids b fresh)))) in Hd.
      simpl in Hd. assert (iter_depth s' = k) by lia.
      split; [done|split; [done|]]. intros x. rewrite Hkeys. lia.
  - intros ids b s. apply initialise_meta.
  - intros s s' H. by apply iterate_Ok_meta in H as (_&_&->&_).
Qed.

Lemma iterate_n_preserve (I : CG -> Prop) :
  (∀ s s', I s -> iter s = Ok s' -> I s') ->
  ∀ n s s', I s -> iter_n n s = Ok s' -> I s'.
Proof.
  intros Hp n. induction n as [|n IH]; intros s s' Hs H; simpl in H.
  - by injection H as <-.
  - destruct (iter s) as [s1|e s1] eqn:E; [|discriminate]. eauto.
Qed.

Lemma build_from_fresh_inv (I : CG -> Prop) ids b k s' :
  (∀ s s', I s -> iter s = Ok s' -> I s') -> I (init ids b fresh) ->
  build ids b k fresh = Ok s' -> I s'.
Proof.
  intros Hp Hi H. unfold build_from_ids in H.
  destruct (k <? 0); [discriminate|]. by eapply iterate_n_preserve.
Qed.

(** One pass of [__iterate]: the graph only gains nodes, and the new
    frontier holds children that were not nodes when the pass began and
    are nodes when it ends. *)
Lemma iter_loop_frontier refs (s0 : CG) :
  let st := fold_left rstep refs (s0, []) in
  (∀ n, has_node (graph s0) n = true -> has_node (graph st.1) n = true) ∧
  (∀ c, c ∈ st.2 -> has_node (graph s0) (scopus_id c) = false ∧
                    has_node (graph st.1) (scopus_id c) = true).
Proof.
  apply (fold_left_inv _ (λ st : CG * list PaperInfo,
    (∀ n, has_node (graph s0) n = true -> has_node (graph st.1) n = true) ∧
    (∀ c, c ∈ st.2 -> has_node (graph s0) (scopus_id c) = false ∧
                      has_node (graph st.1) (scopus_id c) = true))).
  - intros [s acc] [p [c|]] [Hmono Hacc]; simpl in *; [|done].
    split.
    + intros n Hn. apply has_node_add_cit_graph_edge. auto.
    + intros c' Hc'.
      assert (c' ∈ acc ∨ (c' = c ∧ has_node (graph s) (scopus_id c) = false))
        as [Hin|[-> Hn]].
      { destruct (bool_decide (c ∉ acc) && negb (has_node (graph s) (scopus_id c)))
          eqn:E.
        - apply andb_true_iff in E as [_ E]. apply negb_true_iff in E.
          unfold set_add in Hc'. apply elem_of_app in Hc' as [H|H]; [by left|].
          apply list_elem_of_singleton in H. by right.
        - by left. }
      * destruct (Hacc c' Hin) as [H1 H2]. split; [done|].
        apply has_node_add_cit_graph_edge. auto.
      * split.
        -- destruct (has_node (graph s0) (scopus_id c)) eqn:E0; [|done].
           apply Hmono in E0. congruence.
        -- apply has_node_add_cit_graph_edge. auto.
  - simpl. split; [done|]. intros c Hc. by apply elem_of_nil in Hc.
Qed.

Lemma iterate_new_frontier (s s' : CG) :
  iter s = Ok s' ->
  ∃ acc, papers_by_iter_depth s'
         = <[iter_depth s + 1 := acc]> (papers_by_iter_depth s) ∧
    (∀ n, has_node (graph s) n = true -> has_node (graph s') n = true) ∧
    (∀ c, c ∈ acc -> has_node (graph s) (scopus_id c) = false ∧
                     has_node (graph s') (scopus_id c) = true).
Proof.
  intros H. destruct (papers_by_iter_depth s !! iter_depth s) as [ps|] eqn:Hp.
  - rewrite (iterate_eq s ps Hp) in H. injection H as <-.
    match goal with
    | |- context [fold_left rstep ?refs (?s0, [])] =>
        pose proof (iter_loop_meta refs s0 []) as (_&_&_&Hq);
        pose proof (iter_loop_frontier refs s0) as [Hmono Hacc]
    end.
    simpl in *. rewrite Hq. eexists. split; [done|]. split; [apply Hmono|apply Hacc].
  - unfold iterate in H. rewrite Hp in H. discriminate.
Qed.

Lemma iterate_frontier_inv (s s' : CG) :
  frontier_nodes scopus_id s ∧ frontier_disjoint scopus_id s ->
  iter s = Ok s' ->
  frontier_nodes scopus_id s' ∧ frontier_disjoint scopus_id s'.
Proof.
  intros [Hfn Hfd] H.
  destruct (iterate_new_frontier s s' H) as (acc&Hq&Hmono&Hacc).
  split.
  - intros d ps p Hd Hp. rewrite Hq in Hd.
    destruct (decide (d = iter_depth s + 1)) as [->|Hne].
    + rewrite lookup_insert_eq in Hd. injection Hd as <-. by apply Hacc.
    + rewrite lookup_insert_ne in Hd by congruence. eauto.
  - intros d1 d2 ps1 ps2 p1 p2 Hne H1 H2 Hp1 Hp2. rewrite Hq in H1, H2.
    destruct (decide (d1 = iter_depth s + 1)) as [->|Hne1];
    destruct (decide (d2 = iter_depth s + 1)) as [->|Hne2]; try congruence.
    + rewrite lookup_insert_eq in H1. rewrite lookup_insert_ne in H2 by congruence.
      injection H1 as <-. destruct (Hacc p1 Hp1) as [Hn _].
      pose proof (Hfn _ _ _ H2 Hp2). congruence.
    + rewrite lookup_insert_eq in H2. rewrite lookup_insert_ne in H1 by congruence.
      injection H2 as <-. destruct (Hacc p2 Hp2) as [Hn _].
      pose proof (Hfn _ _ _ H1 Hp1). congruence.
    + rewrite lookup_insert_ne in H1, H2 by congruence. eauto.
Qed.

Lemma init_loop_frontier ty ids (s : CG) acc :
  (∀ p, p ∈ acc -> has_node (graph s) (scopus_id p) = true) ->
  let st := fold_left (istep ty) ids (s, acc) in
  ∀ p, p ∈ st.2 -> has_node (graph st.1) (scopus_id p) = true.
Proof.
  intros Hacc. apply (fold_left_inv _ (λ st : CG * list PaperInfo,
    ∀ p, p ∈ st.2 -> has_node (graph st.1) (scopus_id p) = true)); [|done].
  intros [s1 acc1] i H1. unfold init_step. simpl.
  destruct (get_from_scopus i ty (iter_depth s1)) as [q|]; simpl; [|done].
  case_bool_decide; simpl; intros p Hp; apply has_node_add_cit_graph_node.
  - unfold set_add in Hp. apply elem_of_app in Hp as [Hp|Hp]; [left; auto|].
    apply list_elem_of_singleton in Hp. subst. by right.
  - left. auto.
Qed.

Lemma init_fresh_frontier (ids : list string) (b : bool) :
  frontier_nodes scopus_id (init ids b fresh) ∧
  frontier_disjoint scopus_id (init ids b fresh).
Proof.
  rewrite initialise_eq.
  set (ty := if b then "doi" else "eid").
  set (st := fold_left (istep ty) ids (set_use_doi b fresh, [])).
  pose proof (init_loop_meta ty ids (set_use_doi b fresh) []) as (_&_&_&Hq).
  fold st in Hq.
  assert (Hp : papers_by_iter_depth (set_papers (iter_depth (@fresh PaperInfo)) st.2 st.1)
               = <[0 := st.2]> ∅).
  { unfold set_papers. cbn [papers_by_iter_depth]. by rewrite Hq. }
  assert (Hn : ∀ p, p ∈ st.2 -> has_node (graph st.1) (scopus_id p) = true).
  { apply init_loop_frontier. intros p Hp'. by apply elem_of_nil in Hp'. }
  split.
  - intros d ps p Hd Hps. rewrite Hp in Hd.
    rewrite lookup_insert_Some, lookup_empty in Hd.
    destruct Hd as [[_ <-]|[_ ?]]; [by apply Hn|discriminate].
  - intros d1 d2 ps1 ps2 p1 p2 Hne H1 H2. rewrite Hp in H1, H2.
    rewrite lookup_insert_Some, lookup_empty in H1, H2. naive_solver.
Qed.

(** C1. Frontier disjointness: after any build on a new graph no
    [scopus_id] belongs to the frontier sets of two different depths; and
    an expansion pass never admits to its frontier a paper whose
    [scopus_id] was already a node when the pass began. *)
Theorem build_from_ids_frontier_disjoint :
  (∀ ids b k s', build ids b k fresh = Ok s' ->
     ∀ d1 d2 ps1 ps2 p1 p2, d1 ≠ d2 ->
       papers_by_iter_depth s' !! d1 = Some ps1 ->
       papers_by_iter_depth s' !! d2 = Some ps2 ->
       p1 ∈ ps1 -> p2 ∈ ps2 -> scopus_id p1 ≠ scopus_id p2) ∧
  (∀ s s' : CG, iter s = Ok s' ->
     ∀ ps c, papers_by_iter_depth s' !! (iter_depth s + 1) = Some ps ->
       c ∈ ps -> has_node (graph s) (scopus_id c) = false).
Proof.
  split.
  - intros ids b k s' H.
    assert (Hi : frontier_nodes scopus_id s' ∧ frontier_disjoint scopus_id s').
    { apply (build_from_fresh_inv
               (λ s, frontier_nodes scopus_id s ∧ frontier_disjoint scopus_id s)
               ids b k s'); [|apply init_fresh_frontier|exact H].
      intros s1 s2 H1 H2. by eapply iterate_frontier_inv. }
    apply Hi.
  - intros s s' H ps c Hps Hc.
    destruct (iterate_new_frontier s s' H) as (acc&Hq&_&Hacc).
    rewrite Hq, lookup_insert_eq in Hps. injection Hps as <-.
    by apply Hacc.
Qed.

Lemma init_step_graph ty (s : CG) acc i :
  graph (istep ty (s, acc) i).1 =
  match get_from_scopus i ty (iter_depth s) with
  | Some p => add_cit_graph_node (graph s) (scopus_id p) (graph_properties_as_dict p)
  | None => graph s
  end.
Proof.
  unfold init_step. destruct (get_from_scopus i ty (iter_depth s)); simpl;
    [case_bool_decide|]; reflexivity.
Qed.

Lemma iter_step_graph (s : CG) acc p oc :
  graph (rstep (s, acc) (p, oc)).1 =
  match oc with
  | Some c => add_cit_graph_edge (graph s) (scopus_id p)
                (graph_properties_as_dict p) (scopus_id c)
                (graph_properties_as_dict c) None
  | None => graph s
  end.
Proof. by destruct oc. Qed.

Lemma init_graph_inv (R : DiGraph -> Prop) ids b (s : CG) :
  (∀ ty st i, R (graph st.1) -> R (graph (istep ty st i).1)) ->
  R (graph s) -> R (graph (init ids b s)).
Proof.
  intros Hstep Hs. rewrite initialise_eq. unfold set_papers. cbn [graph].
  apply (fold_left_inv _ (λ st : CG * list PaperInfo, R (graph st.1)));
    [apply Hstep|done].
Qed.

Lemma iterate_graph_inv (R : DiGraph -> Prop) (s s' : CG) :
  (∀ st pc, R (graph st.1) -> R (graph (rstep st pc).1)) ->
  R (graph s) -> iter s = Ok s' -> R (graph s').
Proof.
  intros Hstep Hs H. destruct (papers_by_iter_depth s !! iter_depth s) as [ps|] eqn:Hp.
  - rewrite (iterate_eq s ps Hp) in H. injection H as <-.
    unfold set_papers, set_iter_depth. cbn [graph].
    apply (fold_left_inv _ (λ st : CG * list PaperInfo, R (graph st.1)));
      [apply Hstep|done].
  - unfold iterate in H. rewrite Hp in H. discriminate.
Qed.

(** C10. A build never sets an edge weight: whatever graph it starts from,
    every edge weight after [build_from_ids] is what it was before (a new
    edge has none), so a build on a new graph leaves no edge with a
    weight. *)
Theorem build_from_ids_no_weights :
  (∀ ids b k (s s' : CG), build ids b k s = Ok s' ->
     ∀ u v, edge_weight_of (graph s') u v = edge_weight_of (graph s) u v) ∧
  (∀ ids b k (s' : CG), build ids b k fresh = Ok s' ->
     ∀ u v, edge_weight_of (graph s') u v = None).
Proof.
  assert (Hall : ∀ ids b k (s s' : CG), build ids b k s = Ok s' ->
     ∀ u v, edge_weight_of (graph s') u v = edge_weight_of (graph s) u v).
  { intros ids b k s s' H.
    set (R := λ g, ∀ u v, edge_weight_of g u v = edge_weight_of (graph s) u v).
    assert (Hr : ∀ st pc, R (graph st.1) -> R (graph (rstep st pc).1)).
    { intros [s1 acc] [p oc] H1 u v. rewrite iter_step_graph.
      destruct oc; [rewrite edge_weight_add_cit_graph_edge_None|]; apply H1. }
    assert (Hi : R (graph (init ids b s))).
    { apply init_graph_inv; [|by intros u v].
      intros ty [s1 acc] i H1 u v. rewrite init_step_graph.
      destruct (get_from_scopus i ty (iter_depth s1)); [|apply H1].
      unfold edge_weight_of. rewrite add_cit_graph_node_edges. apply H1. }
    unfold build_from_ids in H. destruct (k <? 0); [discriminate|].
    apply (iterate_n_preserve (λ s, R (graph s)) ) with (n := Z.to_nat k)
      (s := init ids b s); [|done|done].
    intros s1 s2 H1 H2. by apply (iterate_graph_inv R s1 s2). }
  split; [exact Hall|].
  intros ids b k s' H u v. rewrite (Hall _ _ _ _ _ H). done.
Qed.

(** The counters agree with the resolutions recorded in the trace. *)
Lemma successes_app (l1 l2 : list (@event PaperInfo)) :
  successes (l1 ++ l2) = successes l1 + successes l2.
Proof. induction l1; simpl; unfold successes in *; simpl in *; lia. Qed.

Lemma failures_app (l1 l2 : list (@event PaperInfo)) :
  failures (l1 ++ l2) = failures l1 + failures l2.
Proof. induction l1; simpl; unfold failures in *; simpl in *; lia. Qed.

Lemma successes_nonneg (l : list (@event PaperInfo)) : 0 <= successes l.
Proof.
  induction l as [|[] l IH]; unfold successes in *; simpl; [lia| |lia].
  destruct result; lia.
Qed.

Lemma failures_nonneg (l : list (@event PaperInfo)) : 0 <= failures l.
Proof.
  induction l as [|[] l IH]; unfold failures in *; simpl; [lia| |lia].
  destruct result; lia.
Qed.

Lemma length_filter_some_none (l : list (PaperInfo * option PaperInfo)) :
  Z.of_nat (length l) =
  Z.of_nat (length (filter (λ pc, is_Some pc.2) l)) +
  Z.of_nat (length (filter (λ pc, pc.2 = None) l)).
Proof.
  induction l as [|[p [c|]] l IH]; [done| |];
    rewrite !filter_cons; repeat case_decide; simpl length; try lia.
  all: exfalso; simpl in *; first
    [ discriminate | congruence
    | match goal with H : ¬ is_Some _ |- _ => apply H; by eexists end
    | match goal with H : is_Some None |- _ => by destruct H end ].
Qed.

Lemma init_step_counters ty (s : CG) acc i :
  let s' := (istep ty (s, acc) i).1 in
  retrievals_total s' = retrievals_total s + 1 ∧
  retrievals_failed s' = retrievals_failed s +
    (if get_from_scopus i ty (iter_depth s) then 0 else 1) ∧
  trace s' = trace s ++ [EvGet i ty (iter_depth s) (get_from_scopus i ty (iter_depth s))].
Proof.
  unfold init_step. destruct (get_from_scopus i ty (iter_depth s)); simpl;
    [case_bool_decide; simpl|]; repeat split; lia.
Qed.

Lemma iter_step_counters (s : CG) acc p oc :
  let s' := (rstep (s, acc) (p, oc)).1 in
  retrievals_total s' = retrievals_total s + 1 ∧
  retrievals_failed s' = retrievals_failed s + (if oc then 0 else 1) ∧
  trace s' = trace s.
Proof. destruct oc; simpl; repeat split; lia. Qed.

Lemma iter_loop_counters refs (s : CG) acc :
  let s' := (fold_left rstep refs (s, acc)).1 in
  retrievals_total s' = retrievals_total s + Z.of_nat (length refs) ∧
  retrievals_failed s' = retrievals_failed s +
    Z.of_nat (length (filter (λ pc, pc.2 = None) refs)) ∧
  trace s' = trace s.
Proof.
  revert s acc. induction refs as [|[p oc] refs IH]; intros s acc.
  - simpl. repeat split; lia.
  - cbn [fold_left]. destruct (rstep (s, acc) (p, oc)) as [s1 acc1] eqn:E.
    pose proof (iter_step_counters s acc p oc) as (Ht&Hf&Htr).
    rewrite E in Ht, Hf, Htr. cbn [fst] in Ht, Hf, Htr.
    destruct (IH s1 acc1) as (Ht'&Hf'&Htr'). rewrite filter_cons.
    destruct oc; case_decide as Hd; cbn [snd] in Hd; try congruence;
      cbn [length]; repeat split; lia || congruence.
Qed.

Lemma counters_consistent_init ids b (s : CG) :
  counters_consistent s -> counters_consistent (init ids b s).
Proof.
  intros Hs. rewrite initialise_eq. unfold set_papers. unfold counters_consistent.
  cbn [retrievals_total retrievals_failed trace].
  apply (fold_left_inv _ (λ st : CG * list PaperInfo, counters_consistent st.1));
    [|exact Hs].
  intros [s1 acc] i [Ht Hf].
  pose proof (init_step_counters (if b then "doi" else "eid") s1 acc i) as (Ht'&Hf'&Htr).
  unfold counters_consistent. rewrite Ht', Hf', Htr, successes_app, failures_app.
  unfold successes, failures. simpl. fold (successes (trace s1)) (failures (trace s1)).
  cbn [fst] in Ht, Hf. destruct (get_from_scopus i _ (iter_depth s1)); simpl; lia.
Qed.

Lemma counters_consistent_iterate (s s' : CG) :
  counters_consistent s -> iter s = Ok s' -> counters_consistent s'.
Proof.
  intros [Ht Hf] H. destruct (papers_by_iter_depth s !! iter_depth s) as [ps|] eqn:Hp.
  - rewrite (iterate_eq s ps Hp) in H. injection H as <-.
    match goal with
    | |- context [fold_left rstep ?refs (?s0, [])] =>
        pose proof (iter_loop_counters refs s0 []) as (Ht'&Hf'&Htr);
        pose proof (length_filter_some_none refs)
    end.
    unfold counters_consistent, set_papers, set_iter_depth.
    cbn [retrievals_total retrievals_failed trace].
    rewrite Ht', Hf', Htr. simpl. rewrite successes_app, failures_app.
    unfold successes, failures. simpl. fold (successes (trace s)) (failures (trace s)).
    lia.
  - unfold iterate in H. rewrite Hp in H. discriminate.
Qed.

(** C6. Counters: each seed lookup and each received (parent, child) pair
    adds 1 to [retrievals_total] and adds 1 to [retrievals_failed] exactly
    when it failed, so both only grow; after a build on a new graph
    [retrievals_failed <= retrievals_total],
    [retrievals_failed] is the number of failed resolutions and
    [retrievals_total] is [retrievals_failed] plus the number of successful
    ones, counted over the collaborator answers recorded in the trace. *)
Theorem retrieval_counters :
  (∀ ty (s : CG) acc i,
     let s' := (istep ty (s, acc) i).1 in
     retrievals_total s' = retrievals_total s + 1 ∧
     retrievals_failed s' = retrievals_failed s +
       (if get_from_scopus i ty (iter_depth s) then 0 else 1)) ∧
  (∀ (s : CG) acc pc,
     let s' := (rstep (s, acc) pc).1 in
     retrievals_total s' = retrievals_total s + 1 ∧
     retrievals_failed s' = retrievals_failed s + (if pc.2 then 0 else 1)) ∧
  (∀ ids b k (s' : CG), build ids b k fresh = Ok s' ->
     0 <= retrievals_failed s' <= retrievals_total s' ∧
     retrievals_total s' = retrievals_failed s' + successes (trace s') ∧
     retrievals_failed s' = failures (trace s')).
Proof.
  split; [|split].
  - intros ty s acc i. by destruct (init_step_counters ty s acc i) as (?&?&_).
  - intros s acc [p oc]. by destruct (iter_step_counters s acc p oc) as (?&?&_).
  - intros ids b k s' H.
    assert (Hc : counters_consistent s').
    { apply (build_from_fresh_inv counters_consistent ids b k s');
        [apply counters_consistent_iterate| |exact H].
      apply counters_consistent_init. by split. }
    destruct Hc as [Ht Hf].
    pose proof (successes_nonneg (trace s')). pose proof (failures_nonneg (trace s')).
    repeat split; lia.
Qed.

Lemma init_step_acc ty (s : CG) acc i :
  (istep ty (s, acc) i).2 =
  match get_from_scopus i ty (iter_depth s) with
  | Some p => if bool_decide (p ∉ acc) then set_add p acc else acc
  | None => acc
  end.
Proof.
  unfold init_step. destruct (get_from_scopus i ty (iter_depth s)); simpl;
    [case_bool_decide|]; reflexivity.
Qed.

Lemma init_step_post ty (s : CG) acc i :
  iter_depth (istep ty (s, acc) i).1 = iter_depth s ∧
  (NoDup acc -> NoDup (istep ty (s, acc) i).2) ∧
  (∀ p, p ∈ (istep ty (s, acc) i).2 <->
        p ∈ acc ∨ get_from_scopus i ty (iter_depth s) = Some p) ∧
  (∀ n, has_node (graph (istep ty (s, acc) i).1) n = true <->
        has_node (graph s) n = true ∨
        ∃ p, get_from_scopus i ty (iter_depth s) = Some p ∧ scopus_id p = n) ∧
  dg_edges (graph (istep ty (s, acc) i).1) = dg_edges (graph s).
Proof.
  pose proof (init_step_meta ty (s, acc) i) as (_&_&Hd&_).
  rewrite init_step_acc, init_step_graph, Hd. cbn [fst]. split; [done|].
  destruct (get_from_scopus i ty (iter_depth s)) as [q|].
  - rewrite add_cit_graph_node_edges.
    case_bool_decide as Hq.
    + repeat split.
      * intros Hnd. unfold set_add. apply NoDup_app. split; [done|].
        split; [|apply NoDup_singleton]. intros x Hx Hx'.
        apply list_elem_of_singleton in Hx'. congruence.
      * unfold set_add. rewrite elem_of_app, list_elem_of_singleton.
        intros [?|?]; [by left|right; congruence].
      * unfold set_add. rewrite elem_of_app, list_elem_of_singleton.
        intros [?|?]; [by left|right; congruence].
      * rewrite has_node_add_cit_graph_node. naive_solver.
      * rewrite has_node_add_cit_graph_node. naive_solver.
    + repeat split.
      * done.
      * by left.
      * intros [?|?]; [done|congruence].
      * rewrite has_node_add_cit_graph_node. naive_solver.
      * rewrite has_node_add_cit_graph_node. naive_solver.
  - repeat split; try done.
    + by left.
    + intros [?|?]; [done|congruence].
    + by left.
    + intros [?|(?&?&?)]; [done|congruence].
Qed.

Lemma init_loop_post ty ids (s : CG) acc :
  let st := fold_left (istep ty) ids (s, acc) in
  (NoDup acc -> NoDup st.2) ∧
  (∀ p, p ∈ st.2 <->
        p ∈ acc ∨ ∃ i, i ∈ ids ∧ get_from_scopus i ty (iter_depth s) = Some p) ∧
  (∀ n, has_node (graph st.1) n = true <->
        has_node (graph s) n = true ∨
        ∃ i p, i ∈ ids ∧ get_from_scopus i ty (iter_depth s) = Some p ∧
               scopus_id p = n) ∧
  dg_edges (graph st.1) = dg_edges (graph s).
Proof.
  revert s acc. induction ids as [|i ids IH]; intros s acc.
  - simpl. split; [done|]. split; [|split; [|done]].
    + intros p. split; [by left|]. intros [?|(?&Hi&_)]; [done|].
      by apply elem_of_nil in Hi.
    + intros n. split; [by left|]. intros [?|(?&?&Hi&_)]; [done|].
      by apply elem_of_nil in Hi.
  - cbn [fold_left].
    pose proof (init_step_post ty s acc i) as (Hd&Hnd&Hm&Hn&He).
    destruct (istep ty (s, acc) i) as [s1 acc1]. cbn [fst snd] in *.
    destruct (IH s1 acc1) as (Hnd'&Hm'&Hn'&He'). rewrite Hd in Hm', Hn'.
    split; [auto|]. split; [|split].
    + intros p. rewrite Hm', Hm. setoid_rewrite elem_of_cons. naive_solver.
    + intros n. rewrite Hn', Hn. split.
      * intros [[H|(p&Hp&Hs)]|(i0&p&Hi0&Hp&Hs)]; [by left| |].
        -- right. exists i, p. split; [by apply elem_of_cons; left|done].
        -- right. exists i0, p. split; [by apply elem_of_cons; right|done].
      * intros [H|(i0&p&Hi0&Hp&Hs)]; [by left; left|].
        apply elem_of_cons in Hi0 as [->|Hi0].
        -- left; right. by exists p.
        -- right. by exists i0, p.
    + congruence.
Qed.

(** C7. Initialisation: on a new graph, [__initialise] leaves in
    [papers_by_iter_depth] only depth 0, holding each successfully resolved
    seed paper once (compared by value) and nothing else; the nodes are
    exactly the [scopus_id]s of those papers; [iter_depth] stays 0 and
    [use_doi] is set to the flag; a build to depth 0 returns exactly this
    state, with no edge; and a failed seed lookup adds 1 to both counters
    and leaves the graph as it is. *)
Theorem initialise_post :
  (∀ (ids : list string) (b : bool),
     let ty : string := if b then "doi" else "eid" in
     let s' := init ids b fresh in
     ∃ ps, papers_by_iter_depth s' = {[0 := ps]} ∧ NoDup ps ∧
       (∀ p, p ∈ ps <-> ∃ i, i ∈ ids ∧ get_from_scopus i ty 0 = Some p) ∧
       (∀ n, has_node (graph s') n = true <-> ∃ p, p ∈ ps ∧ scopus_id p = n) ∧
       iter_depth s' = 0 ∧ use_doi s' = Some b ∧
       build ids b 0 fresh = Ok s' ∧ dg_edges (graph s') = ∅) ∧
  (∀ ty (s : CG) acc i, get_from_scopus i ty (iter_depth s) = None ->
     let s' := (istep ty (s, acc) i).1 in
     graph s' = graph s ∧
     retrievals_failed s' = retrievals_failed s + 1 ∧
     retrievals_total s' = retrievals_total s + 1).
Proof.
  split.
  - intros ids b ty s'.
    assert (Hb : build ids b 0 fresh = Ok s') by reflexivity.
    destruct (initialise_meta ids b fresh) as (_&Hu&Hd&_).
    set (st := fold_left (istep ty) ids (set_use_doi b fresh, [])).
    assert (Hg : graph s' = graph st.1).
    { unfold s'. by rewrite initialise_eq. }
    assert (Hp : papers_by_iter_depth s'
                 = <[0 := st.2]> (papers_by_iter_depth st.1)).
    { unfold s'. by rewrite initialise_eq. }
    pose proof (init_loop_post ty ids (set_use_doi b fresh) []) as (Hnd&Hm&Hn&He).
    pose proof (init_loop_meta ty ids (set_use_doi b fresh) []) as (_&_&_&Hq).
    fold st in Hnd, Hm, Hn, He, Hq.
    cbn [iter_depth set_use_doi fresh new_citation_graph] in Hm, Hn.
    exists st.2. rewrite Hp, Hq, Hg.
    cbn [papers_by_iter_depth set_use_doi fresh new_citation_graph].
    rewrite insert_empty. split; [done|]. split; [apply Hnd; constructor|].
    split; [|split; [|split; [|split; [|split]]]].
    + intros p. rewrite Hm. split; [|by right]. intros [Hp'|?]; [|done].
      by apply elem_of_nil in Hp'.
    + intros n. rewrite Hn. unfold has_node at 1. cbn. split.
      * intros [Hf|(i&p&Hi&Hp'&<-)]; [by apply bool_decide_eq_true in Hf as [? ?]|].
        exists p. split; [|done]. apply Hm. right. eauto.
      * intros (p&Hp'&<-). right. apply Hm in Hp' as [Hp'|(i&Hi&Hg')];
          [by apply elem_of_nil in Hp'|eauto].
    + exact Hd.
    + exact Hu.
    + exact Hb.
    + rewrite He. reflexivity.
  - intros ty s acc i Hg s'. unfold s', init_step. rewrite Hg. simpl.
    repeat split.
Qed.

Lemma iter_step_acc (s : CG) acc p c :
  (rstep (s, acc) (p, Some c)).2 =
  if bool_decide (c ∉ acc) && negb (has_node (graph s) (scopus_id c))
  then set_add c acc else acc.
Proof. reflexivity. Qed.

(** C3. Per-pair processing in [__iterate]: a pair whose child is absent
    adds 1 to both counters and changes neither the graph nor the new
    frontier; a pair with a child upserts the edge parent -> child (with no
    weight), so the edge exists afterwards even when the child was already a
    node, in which case the child does not enter the new frontier; and a
    seed that cites only itself gets the edge from itself to itself while
    depth 1 has an empty frontier. *)
Theorem iter_step_pairs :
  (∀ (s : CG) acc p,
     let st := rstep (s, acc) (p, None) in
     graph st.1 = graph s ∧ st.2 = acc ∧
     retrievals_failed st.1 = retrievals_failed s + 1 ∧
     retrievals_total st.1 = retrievals_total s + 1) ∧
  (∀ (s : CG) acc p c,
     let st := rstep (s, acc) (p, Some c) in
     graph st.1 = add_cit_graph_edge (graph s) (scopus_id p)
                    (graph_properties_as_dict p) (scopus_id c)
                    (graph_properties_as_dict c) None ∧
     is_Some (dg_edges (graph st.1) !! (scopus_id p, scopus_id c)) ∧
     retrievals_failed st.1 = retrievals_failed s ∧
     (has_node (graph s) (scopus_id c) = true -> st.2 = acc)) ∧
  (∀ (id1 : string) (b : bool) p1,
     get_from_scopus id1 (if b then "doi" else "eid") 0 = Some p1 ->
     get_refs_from_scopus [p1] 1 = [(p1, Some p1)] ->
     ∃ s', build [id1] b 1 fresh = Ok s' ∧
       is_Some (dg_edges (graph s') !! (scopus_id p1, scopus_id p1)) ∧
       papers_by_iter_depth s' !! 1 = Some []).
Proof.
  split; [|split].
  - intros s acc p. simpl. repeat split.
  - intros s acc p c st. unfold st. rewrite (iter_step_graph s acc p (Some c)).
    split; [done|]. split; [apply add_cit_graph_edge_has_edge|].
    split; [reflexivity|]. intros Hc. unfold st. rewrite iter_step_acc, Hc.
    by rewrite andb_false_r.
  - intros id1 b p1 H1 H2.
    set (ty := if b then "doi" else "eid"). fold ty in H1.
    set (s0 := init [id1] b fresh).
    destruct (initialise_meta [id1] b fresh) as (_&_&Hd0&_). fold s0 in Hd0.
    cbn [iter_depth fresh new_citation_graph] in Hd0.
    assert (Hp0 : papers_by_iter_depth s0 !! iter_depth s0 = Some [p1]).
    { rewrite Hd0. unfold s0. rewrite initialise_eq. fold ty. cbn [fold_left].
      unfold set_papers. cbn [papers_by_iter_depth snd].
      rewrite init_step_acc. cbn [iter_depth set_use_doi fresh new_citation_graph].
      rewrite H1, lookup_insert_eq. case_bool_decide as Hn; [done|].
      by apply elem_of_nil in Hn. }
    assert (Hn0 : has_node (graph s0) (scopus_id p1) = true).
    { assert (Hg : graph s0 =
                graph (fold_left (istep ty) [id1] (set_use_doi b fresh, [])).1).
      { unfold s0. by rewrite initialise_eq. }
      rewrite Hg. apply init_loop_post. right. exists id1, p1.
      cbn [iter_depth set_use_doi fresh new_citation_graph].
      split; [by apply list_elem_of_singleton|]. split; [|done]. exact H1. }
    change (build [id1] b 1 fresh) with (iter_n 1 s0). cbn [iterate_n].
    rewrite (iterate_eq s0 [p1] Hp0). rewrite Hd0. change (0 + 1) with 1.
    rewrite H2. cbn [fold_left]. eexists. split; [reflexivity|].
    unfold set_papers, set_iter_depth. cbn [graph papers_by_iter_depth iter_depth].
    split.
    + rewrite iter_step_graph. apply add_cit_graph_edge_has_edge.
    + rewrite lookup_insert_eq, iter_step_acc. cbn [graph record].
      by rewrite Hn0, andb_false_r.
Qed.

End Build.

(** ** The export for graphistry *)

Lemma export_node_ok h l d :
  h !! l = Some d -> is_Some (d !! "scopus_id") -> is_Some (d !! "title") ->
  export_node h l = inr (<[l := exported_props d]> h).
Proof.
  intros Hl [sid Hs] [t Ht]. unfold export_node, exported_props.
  rewrite Hl, Hs, lookup_insert_ne by discriminate. rewrite Ht, !insert_insert_eq.
  reflexivity.
Qed.

Lemma export_loop_ok (ns : list (Z * loc)) h :
  NoDup ns.*2 ->
  (∀ n l, (n, l) ∈ ns -> ∃ d, h !! l = Some d ∧
     is_Some (d !! "scopus_id") ∧ is_Some (d !! "title")) ->
  ∃ h', export_loop ns h = inr h' ∧
    (∀ l, l ∉ ns.*2 -> h' !! l = h !! l) ∧
    (∀ l, l ∈ ns.*2 -> h' !! l = exported_props <$> h !! l).
Proof.
  revert h. induction ns as [|[n l] ns IH]; intros h Hnd Hd; simpl.
  - exists h. split; [done|]. split; [done|]. intros l Hl. by apply elem_of_nil in Hl.
  - simpl in Hnd. apply NoDup_cons in Hnd as [Hl Hnd].
    destruct (Hd n l) as (d & Hh & Hs & Ht); [by apply elem_of_cons; left|].
    rewrite (export_node_ok h l d Hh Hs Ht).
    destruct (IH (<[l := exported_props d]> h)) as (h' & Hloop & Hout & Hin);
      [done| |].
    { intros n' l' Hin'. assert (l ≠ l').
      { intros <-. apply Hl. apply list_elem_of_fmap. by exists (n', l). }
      rewrite lookup_insert_ne by done. apply (Hd n'). by apply elem_of_cons; right. }
    exists h'. split; [done|]. split.
    + intros l0 Hl0. rewrite Hout.
      * rewrite lookup_insert_ne; [done|]. intros ->. apply Hl0. by apply elem_of_cons; left.
      * intros ?. apply Hl0. by apply elem_of_cons; right.
    + intros l0 Hl0. apply elem_of_cons in Hl0 as [->|Hl0].
      * rewrite Hout by done. by rewrite lookup_insert_eq, Hh.
      * rewrite Hin by done. rewrite lookup_insert_ne; [done|]. intros ->. contradiction.
Qed.

Lemma NoDup_gen_locs (gen : nat) (ns : list (Z * loc)) :
  (∀ n l, (n, l) ∈ ns -> l = (gen, n)) -> NoDup ns.*1 -> NoDup ns.*2.
Proof.
  induction ns as [|[n l] ns IH]; intros Hg Hnd; simpl in *; [constructor|].
  apply NoDup_cons in Hnd as [Hn Hnd]. apply NoDup_cons. split.
  - intros Hl. apply list_elem_of_fmap in Hl as ([n' l'] & -> & Hin). simpl in *.
    apply Hn. apply list_elem_of_fmap. exists (n', l'). split; [|done].
    pose proof (Hg n' l' (list_elem_of_further _ _ _ Hin)) as E1.
    pose proof (Hg n l' (list_elem_of_here _ _)) as E2.
    simpl. congruence.
  - apply IH; [|done]. intros n' l' Hin. apply Hg. by apply elem_of_cons; right.
Qed.

Section Graphistry.

Context {PaperInfo : Type}.

Lemma exported_props_keys (d : props) sid t :
  d !! "scopus_id" = Some sid -> d !! "title" = Some t ->
  let d' := exported_props d in
  d' !! "scopus_id" = Some (AStr (attr_str sid)) ∧ d' !! "paper_title" = Some t ∧
  d' !! "title" = None ∧
  (∀ k, k ≠ "scopus_id" -> k ≠ "paper_title" -> k ≠ "title" -> d' !! k = d !! k).
Proof.
  intros Hs Ht d'. unfold d', exported_props. rewrite Hs, Ht.
  split; [|split; [|split]].
  - rewrite lookup_delete_ne by discriminate.
    rewrite lookup_insert_ne by discriminate. by rewrite lookup_insert_eq.
  - rewrite lookup_delete_ne by discriminate. by rewrite lookup_insert_eq.
  - by rewrite lookup_delete_eq.
  - intros k H1 H2 H3. rewrite lookup_delete_ne by congruence.
    rewrite !lookup_insert_ne by congruence. done.
Qed.

(** C9. [transform_graphistry] on a graph whose node dicts all carry
    "scopus_id" and "title" returns a graph object whose node dicts are
    fresh copies (no location shared with the original), leaves the value of
    the original graph object unchanged in the new store, and the returned
    graph has the same node keys, edges and other attributes, each node dict
    having "scopus_id" rendered as a string and "title" renamed to
    "paper_title". *)
Theorem transform_graphistry_pure (st : Store) (o : @ObjGraph PaperInfo) :
  store_wf st o ->
  (∀ n d, dg_nodes (graph (view st o)) !! n = Some d ->
     is_Some (d !! "scopus_id") ∧ is_Some (d !! "title")) ->
  ∃ st' o', transform_graphistry st o = ExOk st' o' ∧
    view st' o = view st o ∧
    (∀ n m l, o_nodes o !! n = Some l -> o_nodes o' !! m ≠ Some l) ∧
    view st' o' = set_graph
      (mkDiGraph (exported_props <$> dg_nodes (graph (view st o)))
                 (dg_edges (graph (view st o)))) (view st o) ∧
    (∀ n d sid t, dg_nodes (graph (view st o)) !! n = Some d ->
       d !! "scopus_id" = Some sid -> d !! "title" = Some t ->
       ∃ d', dg_nodes (graph (view st' o')) !! n = Some d' ∧
         d' !! "scopus_id" = Some (AStr (attr_str sid)) ∧
         d' !! "paper_title" = Some t ∧ d' !! "title" = None ∧
         (∀ k, k ≠ "scopus_id" -> k ≠ "paper_title" -> k ≠ "title" ->
               d' !! k = d !! k)).
Proof.
  intros Hwf Hkeys.
  set (gen := next_gen st).
  set (m := o_nodes o).
  set (copies := (kmap (pair gen) (omap (λ l, heap st !! l) m) : gmap loc props)).
  set (h1 := copies ∪ heap st).
  set (m' := (map_imap (λ n (_ : loc), Some (gen, n)) m : gmap Z loc)).
  set (ns := map_to_list m').
  assert (Hm' : ∀ n, m' !! n = (λ _, (gen, n)) <$> m !! n).
  { intros n. unfold m'. rewrite map_lookup_imap. by destruct (m !! n). }
  assert (Hns : ∀ n l, (n, l) ∈ ns -> l = (gen, n) ∧ is_Some (m !! n)).
  { intros n l Hin. unfold ns in Hin. apply elem_of_map_to_list in Hin.
    rewrite Hm' in Hin. destruct (m !! n) eqn:E; simpl in Hin; [|done].
    split; [congruence|by eexists]. }
  assert (Hnd : NoDup ns.*2).
  { apply (NoDup_gen_locs gen); [by intros n l Hin; apply Hns|].
    apply NoDup_fst_map_to_list. }
  assert (Hcopy : ∀ n l0 d, m !! n = Some l0 -> heap st !! l0 = Some d ->
                  h1 !! (gen, n) = Some d).
  { intros n l0 d Hn Hd. unfold h1. apply lookup_union_Some_l.
    unfold copies. rewrite lookup_kmap; [by rewrite lookup_omap, Hn|].
    intros ?? Heq. by injection Heq. }
  assert (Hold : ∀ l0, (l0.1 < gen)%nat -> h1 !! l0 = heap st !! l0).
  { intros l0 Hl0. unfold h1. apply lookup_union_r. unfold copies.
    apply lookup_kmap_None; [intros ?? Heq; by injection Heq|].
    intros i ->. simpl in Hl0. lia. }
  assert (Hdicts : ∀ n l, (n, l) ∈ ns -> ∃ d, h1 !! l = Some d ∧
             is_Some (d !! "scopus_id") ∧ is_Some (d !! "title")).
  { intros n l Hin. destruct (Hns n l Hin) as [-> [l0 Hn]].
    destruct (Hwf n l0 Hn) as [_ [d Hd]]. exists d.
    split; [by apply (Hcopy n l0)|]. apply (Hkeys n). cbn.
    rewrite lookup_omap. fold m. by rewrite Hn. }
  destruct (export_loop_ok ns h1 Hnd Hdicts) as (h' & Hloop & Hout & Hin).
  assert (Htr : transform_graphistry st o =
                ExOk (mkStore h' (S gen)) (mkOG m' (o_edges o) (o_meta o))).
  { unfold transform_graphistry, deepcopy. fold gen m copies h1 m' ns.
    cbn [heap o_nodes]. fold ns. by rewrite Hloop. }
  assert (Hnew : view (mkStore h' (S gen)) (mkOG m' (o_edges o) (o_meta o)) =
    set_graph (mkDiGraph (exported_props <$> dg_nodes (graph (view st o)))
                 (dg_edges (graph (view st o)))) (view st o)).
  { unfold view, set_graph. cbn. f_equal. f_equal. apply map_eq. intros n.
    rewrite lookup_omap, Hm', lookup_fmap, lookup_omap. fold m.
    destruct (m !! n) as [l0|] eqn:Hn; simpl; [|done].
    rewrite Hin.
    - destruct (Hwf n l0 Hn) as [_ [d Hd]].
      exact (f_equal (fmap exported_props) (eq_trans (Hcopy n l0 d Hn Hd) (eq_sym Hd))).
    - apply list_elem_of_fmap. exists (n, (gen, n)). split; [done|].
      unfold ns. apply elem_of_map_to_list. by rewrite Hm', Hn. }
  exists (mkStore h' (S gen)), (mkOG m' (o_edges o) (o_meta o)).
  split; [exact Htr|]. split; [|split; [|split; [exact Hnew|]]].
  - unfold view. cbn [heap o_nodes]. f_equal. f_equal. apply map_eq. intros n.
    rewrite !lookup_omap. fold m. destruct (m !! n) as [l0|] eqn:Hn; simpl; [|done].
    destruct (Hwf n l0 Hn) as [Hlt _]. rewrite Hout.
    + by apply Hold.
    + intros Hl. apply list_elem_of_fmap in Hl as ([n' l'] & -> & Hl).
      destruct (Hns n' l' Hl) as [-> _]. simpl in Hlt. unfold gen in Hlt. lia.
  - intros n k l Hn. cbn [o_nodes]. rewrite Hm'. fold m in Hn.
    destruct (m !! k) eqn:Hk; simpl; [|done]. intros [= <-].
    destruct (Hwf n _ Hn) as [Hlt _]. simpl in Hlt. unfold gen in Hlt. lia.
  - intros n d sid t Hd Hs Ht. rewrite Hnew. cbn [graph set_graph dg_nodes].
    rewrite lookup_fmap, Hd. eexists. split; [reflexivity|].
    by apply exported_props_keys.
Qed.

End Graphistry.

(** ** Further properties of a build *)

Lemma fold_left_inv_in {A B} (f : A -> B -> A) (P : A -> Prop) (l : list B) a :
  (∀ a b, b ∈ l -> P a -> P (f a b)) -> P a -> P (fold_left f l a).
Proof.
  revert a. induction l as [|b l IH]; intros a Hf Ha; simpl; [done|].
  apply IH.
  - intros a' b' Hb. apply Hf. by apply elem_of_cons; right.
  - apply Hf; [by apply elem_of_cons; left|done].
Qed.

Lemma add_cit_graph_edge_keep (g : DiGraph) p pp c cp :
  (∀ n d, dg_nodes g !! n = Some d ->
     dg_nodes (add_cit_graph_edge g p pp c cp None) !! n = Some d) ∧
  (∀ e d, dg_edges g !! e = Some d ->
     dg_edges (add_cit_graph_edge g p pp c cp None) !! e = Some d).
Proof.
  rewrite add_cit_graph_edge_eq. simpl. split.
  - intros n d Hn. by do 2 apply add_cit_graph_node_keep.
  - intros e d He. destruct (decide (e = (p, c))) as [->|Hne].
    + by rewrite lookup_insert_eq, He.
    + by rewrite lookup_insert_ne by congruence.
Qed.

Lemma is_Some_add_cit_graph_node (g : DiGraph) n p m :
  is_Some (dg_nodes (add_cit_graph_node g n p) !! m) <->
  is_Some (dg_nodes g !! m) ∨ m = n.
Proof. rewrite <- !has_node_true. apply has_node_add_cit_graph_node. Qed.

Lemma edges_closed_add_cit_graph_node (g : DiGraph) n p :
  edges_closed g -> edges_closed (add_cit_graph_node g n p).
Proof.
  intros Hg u v. rewrite add_cit_graph_node_edges, !is_Some_add_cit_graph_node.
  intros Huv. destruct (Hg u v Huv). auto.
Qed.

Lemma edges_closed_add_cit_graph_edge (g : DiGraph) p pp c cp w :
  edges_closed g -> edges_closed (add_cit_graph_edge g p pp c cp w).
Proof.
  intros Hg u v. rewrite add_cit_graph_edge_eq. simpl.
  rewrite lookup_insert_is_Some', !is_Some_add_cit_graph_node.
  intros [[= <- <-]|Huv]; [auto|]. destruct (Hg u v Huv). auto.
Qed.

Lemma add_cit_graph_node_from (P : Z -> props -> Prop) (g : DiGraph) n p :
  (∀ m d, dg_nodes g !! m = Some d -> P m d) -> P n p ->
  ∀ m d, dg_nodes (add_cit_graph_node g n p) !! m = Some d -> P m d.
Proof.
  intros Hg Hn m d. rewrite add_cit_graph_node_lookup. case_decide as E.
  - subst. destruct (dg_nodes g !! n) as [d0|] eqn:E0; simpl; intros [= <-]; eauto.
  - eauto.
Qed.

Section BuildMore.

Context {PaperInfo : Type} `{EqDecision PaperInfo}.
Variable scopus_id : PaperInfo -> Z.
Variable graph_properties_as_dict : PaperInfo -> props.
Variable get_from_scopus : string -> string -> Z -> option PaperInfo.
Variable get_refs_from_scopus :
  list PaperInfo -> Z -> list (PaperInfo * option PaperInfo).

Local Abbreviation istep :=
  (init_step scopus_id graph_properties_as_dict get_from_scopus).
Local Abbreviation rstep := (iter_step scopus_id graph_properties_as_dict).
Local Abbreviation init :=
  (initialise scopus_id graph_properties_as_dict get_from_scopus).
Local Abbreviation iter :=
  (iterate scopus_id graph_properties_as_dict get_refs_from_scopus).
Local Abbreviation build :=
  (build_from_ids scopus_id graph_properties_as_dict get_from_scopus
     get_refs_from_scopus).
Local Abbreviation CG := (@CitationGraph PaperInfo).
Local Abbreviation provenance := (provenance scopus_id graph_properties_as_dict).

Arguments add_cit_graph_node : simpl never.
Arguments add_cit_graph_edge : simpl never.

Lemma build_graph_inv (R : DiGraph -> Prop) ids b k (s s' : CG) :
  (∀ ty st i, R (graph st.1) -> R (graph (istep ty st i).1)) ->
  (∀ st pc, R (graph st.1) -> R (graph (rstep st pc).1)) ->
  R (graph s) -> build ids b k s = Ok s' -> R (graph s').
Proof.
  intros Hi Hr Hs H. unfold build_from_ids in H. destruct (k <? 0); [discriminate|].
  refine (iterate_n_preserve scopus_id graph_properties_as_dict get_refs_from_scopus
            (λ s0 : CG, R (graph s0)) _ (Z.to_nat k) _ _ _ H).
  - intros s1 s2 H1 H2. by eapply iterate_graph_inv.
  - by apply init_graph_inv.
Qed.

Lemma iter_step_trace (st : CG * list PaperInfo) pc :
  trace (rstep st pc).1 = trace st.1.
Proof. destruct st as [s acc], pc as [p [c|]]; reflexivity. Qed.

Lemma build_state_inv (I : CG -> Prop) ids b k (s s' : CG) :
  (∀ s b, I s -> I (set_use_doi b s)) ->
  (∀ s d ps, I s -> I (set_papers d ps s)) ->
  (∀ s d, I s -> I (set_iter_depth d s)) ->
  (∀ s e, I s -> I (record e s)) ->
  (∀ ty s acc i, I s -> I (istep ty (s, acc) i).1) ->
  (∀ s acc pc, I s ->
     (∃ ps d refs, EvRefs ps d refs ∈ trace s ∧ pc ∈ refs) ->
     I (rstep (s, acc) pc).1) ->
  I s -> build ids b k s = Ok s' -> I s'.
Proof.
  intros Hu Hp Hd Hr Hi Hs Hs0 H.
  assert (Hinit : ∀ s, I s -> I (init ids b s)).
  { intros s0 H0. rewrite initialise_eq. apply Hp.
    apply (fold_left_inv _ (λ st : CG * list PaperInfo, I st.1)).
    - intros [s1 acc] i H1. by apply Hi.
    - by apply Hu. }
  assert (Hiter : ∀ s s', I s -> iter s = Ok s' -> I s').
  { intros s0 s1 H0 H1.
    destruct (papers_by_iter_depth s0 !! iter_depth s0) as [ps|] eqn:Hps;
      [|unfold iterate in H1; rewrite Hps in H1; discriminate].
    rewrite (iterate_eq _ _ _ s0 ps Hps) in H1. injection H1 as <-.
    apply Hp, Hd.
    set (refs := get_refs_from_scopus ps (iter_depth s0 + 1)).
    set (ev := EvRefs ps (iter_depth s0 + 1) refs).
    refine (proj1 (fold_left_inv_in rstep
      (λ st : CG * list PaperInfo, I st.1 ∧ ev ∈ trace st.1) refs
      (record ev s0, []) _ _)).
    - intros [s2 acc] pc Hin [H2 Ht]. split.
      + apply Hs; [done|]. by exists ps, (iter_depth s0 + 1), refs.
      + by rewrite iter_step_trace.
    - split; [by apply Hr|]. simpl. apply elem_of_app. right.
      by apply list_elem_of_singleton. }
  unfold build_from_ids in H. destruct (k <? 0); [discriminate|].
  exact (iterate_n_preserve scopus_id graph_properties_as_dict get_refs_from_scopus I Hiter _ _ _
           (Hinit s Hs0) H).
Qed.

Lemma returned_papers_app (tr : list (@event PaperInfo)) e :
  returned_papers (tr ++ [e]) = returned_papers tr ++ event_papers e.
Proof. unfold returned_papers. rewrite flat_map_app. simpl. by rewrite app_nil_r. Qed.

Lemma refs_returned (tr : list (@event PaperInfo)) ps d refs p oc :
  EvRefs ps d refs ∈ tr -> (p, oc) ∈ refs ->
  p ∈ returned_papers tr ∧ (∀ c, oc = Some c -> c ∈ returned_papers tr).
Proof.
  intros He Hp. unfold returned_papers.
  assert (Hin : ∀ x, x ∈ event_papers (EvRefs ps d refs) ->
                     x ∈ flat_map event_papers tr).
  { intros x Hx. apply list_elem_of_In, in_flat_map.
    exists (EvRefs ps d refs). split; [by apply list_elem_of_In|].
    by apply list_elem_of_In. }
  assert (Hpc : ∀ x, x ∈ p :: match oc with Some c => [c] | None => [] end ->
                     x ∈ event_papers (EvRefs ps d refs)).
  { intros x Hx. simpl. apply list_elem_of_In, in_flat_map.
    exists (p, oc). split; [by apply list_elem_of_In|]. by apply list_elem_of_In. }
  split.
  - apply Hin, Hpc. by apply elem_of_cons; left.
  - intros c ->. apply Hin, Hpc. apply elem_of_cons; right.
    by apply list_elem_of_singleton.
Qed.

Lemma provenance_build ids b k (s s' : CG) :
  provenance s -> build ids b k s = Ok s' -> provenance s'.
Proof.
  apply build_state_inv; try (intros; assumption).
  - intros s0 e [Hn He]. split.
    + intros n d Hd. destruct (Hn n d Hd) as (p & Hp & ?). exists p.
      split; [|done]. cbn [trace record]. rewrite returned_papers_app.
      apply elem_of_app. by left.
    + intros u v Huv. destruct (He u v Huv) as (ps&d&refs&p&c&Hr&?).
      exists ps, d, refs, p, c. split; [|done]. cbn [trace record].
      apply elem_of_app. by left.
  - intros ty s0 acc i [Hn He]. unfold init_step; cbv beta iota zeta.
    set (ev := EvGet i ty (iter_depth s0) (get_from_scopus i ty (iter_depth s0))).
    assert (Hold : ∀ x, x ∈ returned_papers (trace s0) ->
                        x ∈ returned_papers (trace s0 ++ [ev])).
    { intros x Hx. rewrite returned_papers_app. apply elem_of_app. by left. }
    assert (He' : ∀ u v, is_Some (dg_edges (graph s0) !! (u, v)) ->
       ∃ ps d refs p c, EvRefs ps d refs ∈ trace s0 ++ [ev] ∧ (p, Some c) ∈ refs ∧
         scopus_id p = u ∧ scopus_id c = v).
    { intros u v Huv. destruct (He u v Huv) as (ps&d&refs&p&c&Hr&?).
      exists ps, d, refs, p, c. split; [|done]. apply elem_of_app. by left. }
    assert (Hn' : ∀ n d, dg_nodes (graph s0) !! n = Some d ->
       ∃ p, p ∈ returned_papers (trace s0 ++ [ev]) ∧ scopus_id p = n ∧
            d = graph_properties_as_dict p).
    { intros n d Hd. destruct (Hn n d Hd) as (p & Hp & ?). exists p.
      split; [by apply Hold|done]. }
    fold ev.
    destruct (get_from_scopus i ty (iter_depth s0)) as [q|] eqn:Hq.
    + assert (Hq' : q ∈ returned_papers (trace s0 ++ [ev])).
      { rewrite returned_papers_app. apply elem_of_app. right. unfold ev.
        simpl. by apply list_elem_of_singleton. }
      assert (Hstep : provenance (set_graph (add_cit_graph_node (graph s0)
         (scopus_id q) (graph_properties_as_dict q)) (incr_total (record ev s0)))).
      { split; cbn [graph trace set_graph incr_total record].
        - apply add_cit_graph_node_from; [exact Hn'|]. by exists q.
        - intros u v. rewrite add_cit_graph_node_edges. apply He'. }
      by case_bool_decide.
    + split; cbn [fst graph trace incr_failed incr_total record]; assumption.
  - intros s0 acc [p oc] [Hn He] (ps & d & refs & Hr & Hpc).
    destruct oc as [c|]; [|split; assumption].
    destruct (refs_returned _ _ _ _ _ _ Hr Hpc) as [Hp Hc].
    specialize (Hc c eq_refl).
    split; cbn [fst graph trace set_graph incr_total iter_step].
    + pose (P := λ m dd, ∃ x, x ∈ returned_papers (trace s0) ∧ scopus_id x = m ∧
                             dd = graph_properties_as_dict x).
      intros n dd. rewrite add_cit_graph_edge_eq. cbn [dg_nodes]. revert n dd.
      apply (add_cit_graph_node_from P); [|by exists c].
      apply (add_cit_graph_node_from P); [exact Hn|by exists p].
    + intros u v Huv. rewrite add_cit_graph_edge_eq in Huv. cbn [dg_edges] in Huv.
      rewrite lookup_insert_is_Some' in Huv. destruct Huv as [[= <- <-]|Huv].
      * by exists ps, d, refs, p, c.
      * by apply He.
Qed.

End BuildMore.

(** ** Further properties of a build: calls, resumption, growth *)

Section BuildExtra.

Context {PaperInfo : Type} `{EqDecision PaperInfo}.
Variable scopus_id : PaperInfo -> Z.
Variable graph_properties_as_dict : PaperInfo -> props.
Variable get_from_scopus : string -> string -> Z -> option PaperInfo.
Variable get_refs_from_scopus :
  list PaperInfo -> Z -> list (PaperInfo * option PaperInfo).

Local Abbreviation istep :=
  (init_step scopus_id graph_properties_as_dict get_from_scopus).
Local Abbreviation rstep := (iter_step scopus_id graph_properties_as_dict).
Local Abbreviation init :=
  (initialise scopus_id graph_properties_as_dict get_from_scopus).
Local Abbreviation iter :=
  (iterate scopus_id graph_properties_as_dict get_refs_from_scopus).
Local Abbreviation iter_n :=
  (iterate_n scopus_id graph_properties_as_dict get_refs_from_scopus).
Local Abbreviation CG := (@CitationGraph PaperInfo).

Arguments add_cit_graph_node : simpl never.
Arguments add_cit_graph_edge : simpl never.

(** The seed lookups of [__initialise], in order. *)
Lemma init_loop_trace ty ids (s : CG) acc :
  trace (fold_left (istep ty) ids (s, acc)).1 =
  trace s ++ map (λ i, EvGet i ty (iter_depth s)
                         (get_from_scopus i ty (iter_depth s))) ids.
Proof.
  revert s acc. induction ids as [|i ids IH]; intros s acc; cbn [fold_left map].
  - by rewrite app_nil_r.
  - destruct (istep ty (s, acc) i) as [s1 acc1] eqn:E.
    pose proof (init_step_meta scopus_id graph_properties_as_dict get_from_scopus
                  ty (s, acc) i) as (_&_&Hd&_).
    rewrite E in Hd. simpl in Hd. rewrite IH, Hd.
    assert (Ht : trace s1 = trace s ++ [EvGet i ty (iter_depth s)
                   (get_from_scopus i ty (iter_depth s))]).
    { change s1 with (s1, acc1).1. rewrite <- E. unfold init_step. simpl.
      destruct (get_from_scopus i ty (iter_depth s)); simpl;
        [case_bool_decide|]; reflexivity. }
    rewrite Ht, <- app_assoc. reflexivity.
Qed.

Lemma initialise_trace ids b (s : CG) :
  trace (init ids b s) =
  trace s ++ map (λ i, EvGet i (if b then "doi" else "eid") (iter_depth s)
                         (get_from_scopus i (if b then "doi" else "eid")
                            (iter_depth s))) ids.
Proof.
  rewrite initialise_eq. cbn [trace set_papers].
  by rewrite init_loop_trace.
Qed.

Lemma iterate_trace (s s' : CG) :
  iter s = Ok s' ->
  ∃ ps, papers_by_iter_depth s !! iter_depth s = Some ps ∧
    trace s' = trace s ++ [EvRefs ps (iter_depth s + 1)
                             (get_refs_from_scopus ps (iter_depth s + 1))].
Proof.
  intros H. destruct (papers_by_iter_depth s !! iter_depth s) as [ps|] eqn:Hp.
  - exists ps. split; [done|].
    rewrite (iterate_eq _ _ _ s ps Hp) in H. injection H as <-.
    cbn [trace set_papers set_iter_depth].
    match goal with
    | |- context [fold_left rstep ?refs (?s0, [])] =>
        refine (fold_left_inv _ (λ st : CG * list PaperInfo, trace st.1 = trace s0)
                  refs (s0, []) _ eq_refl)
    end.
    intros st pc Hst. by rewrite iter_step_trace.
  - unfold iterate in H. rewrite Hp in H. discriminate.
Qed.

Lemma iterate_n_keep n (s s' : CG) :
  iter_n n s = Ok s' ->
  ∀ x, x <= iter_depth s -> papers_by_iter_depth s' !! x = papers_by_iter_depth s !! x.
Proof.
  revert s. induction n as [|n IH]; intros s H x Hx; simpl in H.
  - by injection H as <-.
  - destruct (iter s) as [s1|e s1] eqn:E; [|discriminate].
    pose proof (iterate_Ok_meta _ _ _ _ _ E) as (_&_&Hd&acc&Hp).
    rewrite (IH s1 H x) by lia. rewrite Hp, lookup_insert_ne by lia. done.
Qed.

Lemma iterate_n_trace n (s s' : CG) :
  iter_n n s = Ok s' ->
  ∃ evs, trace s' = trace s ++ evs ∧ length evs = n ∧
    ∀ j ev, evs !! j = Some ev ->
      ∃ ps, papers_by_iter_depth s' !! (iter_depth s + Z.of_nat j) = Some ps ∧
        ev = EvRefs ps (iter_depth s + Z.of_nat j + 1)
               (get_refs_from_scopus ps (iter_depth s + Z.of_nat j + 1)).
Proof.
  revert s. induction n as [|n IH]; intros s H; simpl in H.
  - injection H as <-. exists []. split; [by rewrite app_nil_r|].
    split; [done|]. intros j ev Hj. by rewrite lookup_nil in Hj.
  - destruct (iter s) as [s1|e s1] eqn:E; [|discriminate].
    pose proof (iterate_Ok_meta _ _ _ _ _ E) as (_&_&Hd&acc&Hp).
    destruct (iterate_trace s s1 E) as (ps & Hps & Ht).
    destruct (IH s1 H) as (evs & Ht' & Hlen & Hev).
    exists (EvRefs ps (iter_depth s + 1)
              (get_refs_from_scopus ps (iter_depth s + 1)) :: evs).
    split; [by rewrite Ht', Ht, <- app_assoc|]. split; [simpl; lia|].
    intros [|j] ev Hj; simpl in Hj.
    + injection Hj as <-. exists ps. split; [|by rewrite Z.add_0_r].
      rewrite Z.add_0_r, (iterate_n_keep n s1 s' H) by lia.
      rewrite Hp, lookup_insert_ne by lia. done.
    + destruct (Hev j ev Hj) as (ps' & Hps' & ->). exists ps'.
      rewrite Hd in Hps'. replace (iter_depth s + Z.of_nat (S j))
        with (iter_depth s + 1 + Z.of_nat j) by lia. by rewrite Hd.
Qed.

(** The seeds are looked up once each, in order, at the depth the build
    starts from; then each pass asks for the references of the frontier
    of its depth, once. *)
Theorem build_from_ids_calls ids b k (s s' : CG) :
  build_from_ids scopus_id graph_properties_as_dict get_from_scopus
    get_refs_from_scopus ids b k s = Ok s' ->
  let ty : string := if b then "doi" else "eid" in
  ∃ evs, trace s' = trace s ++
      map (λ i, EvGet i ty (iter_depth s) (get_from_scopus i ty (iter_depth s))) ids
      ++ evs ∧
    length evs = Z.to_nat k ∧
    ∀ j ev, evs !! j = Some ev ->
      ∃ ps, papers_by_iter_depth s' !! (iter_depth s + Z.of_nat j) = Some ps ∧
        ev = EvRefs ps (iter_depth s + Z.of_nat j + 1)
               (get_refs_from_scopus ps (iter_depth s + Z.of_nat j + 1)).
Proof.
  intros H ty. unfold build_from_ids in H. destruct (k <? 0); [discriminate|].
  destruct (iterate_n_trace _ _ _ H) as (evs & Ht & Hlen & Hev).
  pose proof (initialise_meta scopus_id graph_properties_as_dict get_from_scopus
                ids b s) as (_&_&Hd&_).
  exists evs. rewrite Ht, initialise_trace, <- app_assoc. fold ty.
  split; [done|]. split; [done|]. rewrite Hd in Hev. exact Hev.
Qed.

(** A build from any state with [k >= 0] returns normally, [k] levels
    deeper, with [use_doi] set to the flag, the name kept, the frontier
    keys from the starting depth to the new one all present, and the
    frontier sets of the other depths untouched. *)
Theorem build_from_ids_resume ids b k (s : CG) :
  0 <= k ->
  ∃ s', build_from_ids scopus_id graph_properties_as_dict get_from_scopus
          get_refs_from_scopus ids b k s = Ok s' ∧
    iter_depth s' = iter_depth s + k ∧ name s' = name s ∧ use_doi s' = Some b ∧
    (∀ x, iter_depth s <= x <= iter_depth s + k ->
          is_Some (papers_by_iter_depth s' !! x)) ∧
    (∀ x, x < iter_depth s ∨ iter_depth s + k < x ->
          papers_by_iter_depth s' !! x = papers_by_iter_depth s !! x).
Proof.
  intros Hk. unfold build_from_ids. rewrite (proj2 (Z.ltb_ge k 0) Hk).
  set (I := λ s1 : CG, name s1 = name s ∧ use_doi s1 = Some b ∧
      iter_depth s <= iter_depth s1 ∧
      (∀ x, iter_depth s <= x <= iter_depth s1 ->
            is_Some (papers_by_iter_depth s1 !! x)) ∧
      (∀ x, x < iter_depth s ∨ iter_depth s1 < x ->
            papers_by_iter_depth s1 !! x = papers_by_iter_depth s !! x)).
  destruct (iterate_n_inv scopus_id graph_properties_as_dict get_refs_from_scopus
              I (Z.to_nat k) (init ids b s)) as (s' & Hs' & Hn & Hu & Hle & Hin & Hout).
  - intros s1 (_&_&Hle&Hin&_). apply Hin. lia.
  - intros s1 s2 (Hn&Hu&Hle&Hin&Hout) H.
    pose proof (iterate_Ok_meta _ _ _ _ _ H) as (Hn2&Hu2&Hd2&acc&Hp2).
    split; [congruence|]. split; [congruence|]. split; [lia|]. split.
    + intros x Hx. rewrite Hp2. destruct (decide (x = iter_depth s1 + 1)) as [->|Hne].
      * rewrite lookup_insert_eq. by eexists.
      * rewrite lookup_insert_ne by congruence. apply Hin. lia.
    + intros x Hx. rewrite Hp2, lookup_insert_ne by lia. apply Hout. lia.
  - pose proof (initialise_meta scopus_id graph_properties_as_dict get_from_scopus
                  ids b s) as (Hn&Hu&Hd&acc&Hp).
    split; [done|]. split; [done|]. split; [lia|]. split.
    + intros x Hx. assert (x = iter_depth s) as -> by lia.
      rewrite Hp, lookup_insert_eq. by eexists.
    + intros x Hx. rewrite Hp, lookup_insert_ne by lia. done.
  - pose proof (iterate_n_depth _ _ _ _ _ _ Hs') as Hd.
    pose proof (initialise_meta scopus_id graph_properties_as_dict get_from_scopus
                  ids b s) as (_&_&Hd0&_).
    rewrite Hd0, Z2Nat.id in Hd by lia.
    exists s'. split; [done|]. split; [done|]. split; [done|]. split; [done|].
    split.
    + intros x Hx. apply Hin. lia.
    + intros x Hx. apply Hout. lia.
Qed.

(** A build only adds to the graph: every node dict and every edge dict
    present before is still there, unchanged. *)
Theorem build_from_ids_keeps_graph ids b k (s s' : CG) :
  build_from_ids scopus_id graph_properties_as_dict get_from_scopus
    get_refs_from_scopus ids b k s = Ok s' ->
  (∀ n d, dg_nodes (graph s) !! n = Some d -> dg_nodes (graph s') !! n = Some d) ∧
  (∀ e d, dg_edges (graph s) !! e = Some d -> dg_edges (graph s') !! e = Some d).
Proof.
  apply (build_graph_inv scopus_id graph_properties_as_dict get_from_scopus
           get_refs_from_scopus
           (λ g, (∀ n d, dg_nodes (graph s) !! n = Some d -> dg_nodes g !! n = Some d) ∧
                 (∀ e d, dg_edges (graph s) !! e = Some d -> dg_edges g !! e = Some d))).
  - intros ty [s1 acc] i [H1 H2]. cbn [fst] in *. rewrite init_step_graph.
    destruct (get_from_scopus i ty (iter_depth s1)); [|by split].
    split; intros ? ? ?; [apply add_cit_graph_node_keep; auto|].
    rewrite add_cit_graph_node_edges. auto.
  - intros [s1 acc] [p [c|]] [H1 H2]; cbn [fst] in *; rewrite iter_step_graph;
      [|by split].
    split; intros ? ? ?; apply add_cit_graph_edge_keep; auto.
  - by split.
Qed.

(** A build keeps every edge between two nodes: if each edge of the graph
    joins two nodes before the build, it still does after it. *)
Theorem build_from_ids_edges_closed ids b k (s s' : CG) :
  edges_closed (graph s) ->
  build_from_ids scopus_id graph_properties_as_dict get_from_scopus
    get_refs_from_scopus ids b k s = Ok s' ->
  edges_closed (graph s').
Proof.
  apply (build_graph_inv scopus_id graph_properties_as_dict get_from_scopus
           get_refs_from_scopus edges_closed).
  - intros ty [s1 acc] i H1. cbn [fst] in *. rewrite init_step_graph.
    destruct (get_from_scopus i ty (iter_depth s1)); [|done].
    by apply edges_closed_add_cit_graph_node.
  - intros [s1 acc] [p [c|]] H1; cbn [fst] in *; rewrite iter_step_graph; [|done].
    by apply edges_closed_add_cit_graph_edge.
Qed.

(** On a new graph, a build creates only nodes and edges that the
    collaborators returned: each node dict is the property dict of a
    returned paper whose [scopus_id] is the node, and each edge is a
    (parent, resolved child) pair of a returned reference list. *)
Theorem build_from_ids_provenance ids b k (s' : CG) :
  build_from_ids scopus_id graph_properties_as_dict get_from_scopus
    get_refs_from_scopus ids b k fresh = Ok s' ->
  provenance scopus_id graph_properties_as_dict s'.
Proof.
  apply (provenance_build scopus_id graph_properties_as_dict get_from_scopus
           get_refs_from_scopus).
  split; cbn; intros *; rewrite lookup_empty; [discriminate|by intros []].
Qed.

(** On a new graph, every paper of every frontier set is a node of the
    built graph. *)
Theorem build_from_ids_frontier_nodes ids b k (s' : CG) :
  build_from_ids scopus_id graph_properties_as_dict get_from_scopus
    get_refs_from_scopus ids b k fresh = Ok s' ->
  frontier_nodes scopus_id s'.
Proof.
  intros H.
  refine (proj1 (build_from_fresh_inv scopus_id graph_properties_as_dict
    get_from_scopus get_refs_from_scopus
    (λ s, frontier_nodes scopus_id s ∧ frontier_disjoint scopus_id s)
    ids b k s' _ _ H)).
  - intros s1 s2 H1 H2.
    exact (iterate_frontier_inv scopus_id graph_properties_as_dict
             get_refs_from_scopus s1 s2 H1 H2).
  - exact (init_fresh_frontier scopus_id graph_properties_as_dict get_from_scopus
             get_refs_from_scopus ids b).
Qed.

End BuildExtra.

(** ** String and path lemmas *)

Lemma str_length_app (a b : string) :
  String.length (a +:+ b) = (String.length a + String.length b)%nat.
Proof. induction a as [|x a IH]; simpl; [done|]. by rewrite IH. Qed.

Lemma str_rfind_range c s : -1 <= str_rfind c s < Z.of_nat (String.length s).
Proof.
  induction s as [|a s IH]; simpl; [lia|].
  destruct (0 <=? str_rfind c s) eqn:E; [apply Z.leb_le in E; lia|].
  apply Z.leb_gt in E. case_bool_decide; lia.
Qed.

Lemma str_rfind_absent c s : str_has c s = false -> str_rfind c s = -1.
Proof.
  induction s as [|a s IH]; simpl; [done|].
  intros [Ha Hs]%orb_false_iff. rewrite IH by done. simpl. by rewrite Ha.
Qed.

Lemma str_rfind_app c (a b : string) :
  str_rfind c (a +:+ b) =
  if 0 <=? str_rfind c b then Z.of_nat (String.length a) + str_rfind c b
  else str_rfind c a.
Proof.
  induction a as [|x a IH]; simpl.
  - change ("" +:+ b) with b. destruct (0 <=? str_rfind c b) eqn:E; [lia|].
    apply Z.leb_gt in E. pose proof (str_rfind_range c b). lia.
  - rewrite IH. destruct (0 <=? str_rfind c b) eqn:E.
    + apply Z.leb_le in E. rewrite (proj2 (Z.leb_le _ _)) by lia. lia.
    + reflexivity.
Qed.

Lemma str_take_app (a b : string) : str_take (String.length a) (a +:+ b) = a.
Proof. induction a as [|x a IH]; simpl; [done|]. by rewrite IH. Qed.

Lemma str_drop_app (a b : string) : str_drop (String.length a) (a +:+ b) = b.
Proof. induction a as [|x a IH]; simpl; [done|]. done. Qed.

Lemma str_length_drop n s :
  String.length (str_drop n s) = (String.length s - n)%nat.
Proof.
  revert s. induction n as [|n IH]; intros [|a s]; simpl; try done.
Qed.

Lemma str_length_take n s :
  String.length (str_take n s) = Nat.min n (String.length s).
Proof.
  revert s. induction n as [|n IH]; intros [|a s]; simpl; try done. by rewrite IH.
Qed.

Lemma str_take_drop n s : str_take n s +:+ str_drop n s = s.
Proof.
  revert s. induction n as [|n IH]; intros [|a s]; simpl; try done. exact (f_equal (String a) (IH s)).
Qed.

Lemma dotted_suffix_inv sfx :
  dotted_suffix sfx = true ->
  ∃ t, sfx = String "."%char t ∧ t ≠ "" ∧ str_has "."%char t = false ∧
       str_has "/"%char t = false.
Proof.
  destruct sfx as [|a t]; [discriminate|]. simpl.
  intros H. apply andb_true_iff in H as [H Hs]. apply andb_true_iff in H as [H Hd].
  apply andb_true_iff in H as [Ha Ht]. apply bool_decide_eq_true in Ha, Ht.
  apply negb_true_iff in Hs, Hd. subst. by exists t.
Qed.

Lemma with_suffix_checks t :
  t ≠ "" -> str_has "/"%char t = false ->
  str_has "/"%char (String "."%char t) = false ∧
  (bool_decide (String "."%char t ≠ "") &&
     negb (String.prefix "." (String "."%char t))
   || bool_decide (String "."%char t = ".")) = false.
Proof.
  intros Ht Hs. split.
  - cbn [str_has]. by rewrite Hs.
  - assert (Hp : String.prefix "." (String "."%char t) = true)
      by (destruct t; reflexivity).
    rewrite Hp, andb_false_r, (bool_decide_false (String "."%char t = ".")); [done|].
    intros [= ->]. done.
Qed.

Lemma with_suffix_dotted p sfx :
  dotted_suffix sfx = true -> path_name p ≠ "" ->
  with_suffix p sfx =
  inr (mkPath (path_root p) (removelast (path_parts p) ++ [path_stem p +:+ sfx])).
Proof.
  intros Hd Hn. destruct (dotted_suffix_inv sfx Hd) as (t & -> & Ht & _ & Hs).
  destruct (with_suffix_checks t Ht Hs) as [H1 H2].
  unfold with_suffix. rewrite H1, H2, (bool_decide_false (path_name p = "")) by done.
  do 3 f_equal. f_equal. unfold path_suffix, path_stem.
  set (name := path_name p). set (i := str_rfind "."%char name).
  destruct ((0 <? i) && (i <? Z.of_nat (String.length name) - 1)) eqn:Hc.
  - apply andb_true_iff in Hc as [Hi1 Hi2]. apply Z.ltb_lt in Hi1, Hi2.
    rewrite bool_decide_false.
    + f_equal. f_equal. rewrite str_length_drop. lia.
    + intros Hdrop. apply (f_equal String.length) in Hdrop.
      rewrite str_length_drop in Hdrop. simpl in Hdrop. lia.
  - by rewrite bool_decide_true.
Qed.

Lemma with_suffix_empty_name p sfx :
  dotted_suffix sfx = true -> path_name p = "" ->
  with_suffix p sfx = inl (EmptyName p).
Proof.
  intros Hd Hn. destruct (dotted_suffix_inv sfx Hd) as (t & -> & Ht & _ & Hs).
  destruct (with_suffix_checks t Ht Hs) as [H1 H2].
  unfold with_suffix. by rewrite H1, H2, bool_decide_true.
Qed.

Lemma path_name_replace p nm :
  path_name p ≠ "" ->
  path_name (mkPath (path_root p) (removelast (path_parts p) ++ [nm])) = nm ∧
  removelast (path_parts p) ++ [path_name p] = path_parts p.
Proof.
  destruct p as [root parts]. unfold path_name. cbn [path_root path_parts].
  induction parts as [|x l _] using rev_ind.
  - cbn. case_match; done.
  - rewrite removelast_last, !length_app, last_snoc. cbn [length].
    destruct (_ =? _)%nat; [done|]. intros _. by rewrite last_snoc.
Qed.

Lemma str_nonempty s : s ≠ "" -> (0 < String.length s)%nat.
Proof. destruct s; simpl; [done|lia]. Qed.

Lemma path_stem_nonempty p : path_name p ≠ "" -> path_stem p ≠ "".
Proof.
  intros Hn. unfold path_stem. set (name := path_name p).
  set (i := str_rfind "."%char name).
  destruct ((0 <? i) && (i <? Z.of_nat (String.length name) - 1)) eqn:Hc; [|done].
  apply andb_true_iff in Hc as [Hi1 _]. apply Z.ltb_lt in Hi1.
  pose proof (str_nonempty name Hn). intros Ht.
  apply (f_equal String.length) in Ht. rewrite str_length_take in Ht. simpl in Ht. lia.
Qed.

Lemma path_suffix_dotted q stem sfx :
  dotted_suffix sfx = true -> stem ≠ "" -> path_name q = stem +:+ sfx ->
  path_suffix q = sfx ∧ path_stem q = stem.
Proof.
  intros Hd Hst Hn. destruct (dotted_suffix_inv sfx Hd) as (t & -> & Ht & Hdot & _).
  assert (Hr : str_rfind "."%char (String "."%char t) = 0).
  { cbn [str_rfind]. rewrite str_rfind_absent by done. done. }
  unfold path_suffix, path_stem. rewrite Hn, str_rfind_app, Hr, Z.leb_refl, Z.add_0_r. cbv iota.
  pose proof (str_nonempty _ Hst). pose proof (str_nonempty _ Ht).
  rewrite str_length_app. cbn [String.length].
  rewrite (proj2 (andb_true_iff _ _)); [|split; apply Z.ltb_lt; lia].
  rewrite Nat2Z.id. by rewrite str_drop_app, str_take_app.
Qed.

Lemma with_suffix_same p sfx :
  dotted_suffix sfx = true -> path_suffix p = sfx -> with_suffix p sfx = inr p.
Proof.
  intros Hd Hs.
  assert (Hsne : sfx ≠ "").
  { destruct (dotted_suffix_inv sfx Hd) as (t & -> & _). done. }
  assert (Hc : (0 <? str_rfind "."%char (path_name p)) &&
               (str_rfind "."%char (path_name p) <?
                  Z.of_nat (String.length (path_name p)) - 1) = true).
  { unfold path_suffix in Hs. destruct (_ && _); [done|]. by subst. }
  assert (Hn : path_name p ≠ "").
  { intros E. rewrite E in Hc. discriminate. }
  rewrite (with_suffix_dotted p sfx Hd Hn).
  assert (Hname : path_stem p +:+ sfx = path_name p).
  { rewrite <- Hs. unfold path_stem, path_suffix. rewrite Hc. apply str_take_drop. }
  rewrite Hname, (proj2 (path_name_replace p "" Hn)). by destruct p.
Qed.

Lemma str_split_lstrip s :
  ∃ n, str_split "/"%char s = replicate n "" ++ str_split "/"%char (str_lstrip "/"%char s).
Proof.
  induction s as [|a s [n IH]]; [by exists 0%nat|].
  destruct (decide (a = "/"%char)) as [->|Ha].
  - exists (S n). cbn [str_split str_lstrip]. rewrite !bool_decide_true by done.
    cbn [replicate app]. by rewrite IH.
  - exists 0%nat. cbn [str_lstrip]. by rewrite bool_decide_false.
Qed.

Lemma str_split_absent c s : str_has c s = false -> str_split c s = [s].
Proof.
  induction s as [|a s IH]; [done|]. cbn [str_has str_split].
  intros [Ha Hs]%orb_false_iff. by rewrite IH, Ha.
Qed.

Lemma parsed_filter rel :
  (if str_has "/"%char rel then filter (λ x, keep_part x = true) (str_split "/"%char rel)
   else if keep_part rel then [rel] else []) =
  filter (λ x, keep_part x = true) (str_split "/"%char rel).
Proof.
  destruct (str_has "/"%char rel) eqn:E; [done|]. rewrite str_split_absent by done.
  rewrite filter_cons, filter_nil. by destruct (keep_part rel).
Qed.

Lemma keep_part_false x : keep_part x = false <-> x = "" ∨ x = ".".
Proof.
  unfold keep_part. rewrite andb_false_iff, !bool_decide_eq_false.
  destruct (decide (x = "")), (decide (x = ".")); naive_solver.
Qed.

Lemma filter_keep_nil l :
  filter (λ x, keep_part x = true) l = [] <-> Forall (λ x, x = "" ∨ x = ".") l.
Proof.
  induction l as [|x l IH]; [split; [constructor|done]|].
  rewrite filter_cons, Forall_cons, <- IH, <- keep_part_false.
  destruct (keep_part x); simpl; [|naive_solver]. split; [done|]. intros [? _]. done.
Qed.

Lemma filter_keep_nonempty l :
  Forall (λ x, x ≠ "") (filter (λ x, keep_part x = true) l).
Proof.
  apply Forall_forall. intros x Hx. apply list_elem_of_filter in Hx.
  destruct Hx as [Hk _]. intros ->. discriminate.
Qed.

Lemma path_name_parsed root pre parsed :
  length pre = (if bool_decide (root ≠ "") then 1 else 0)%nat ->
  Forall (λ x, x ≠ "") parsed ->
  path_name (mkPath root (pre ++ parsed)) = "" <-> parsed = [].
Proof.
  intros Hl. unfold path_name. cbn [path_root path_parts].
  induction parsed as [|x l _] using rev_ind; intros Hne.
  - rewrite app_nil_r, Hl, Nat.eqb_refl. done.
  - rewrite app_assoc, !length_app, Hl, last_snoc. cbn [length].
    rewrite (proj2 (Nat.eqb_neq _ _)) by lia. cbn [default].
    rewrite Forall_app, Forall_singleton in Hne. destruct Hne as [_ Hx].
    split; [intros E; exfalso; exact (Hx E)|]. intros H.
    by apply app_eq_nil in H as [_ ?].
Qed.

Lemma path_name_of_str s :
  path_name (path_of_str s) = "" <-> Forall (λ x, x = "" ∨ x = ".") (str_split "/"%char s).
Proof.
  destruct (str_split_lstrip s) as [n Hn]. rewrite Hn, Forall_app.
  assert (Hrep : Forall (λ x, x = "" ∨ x = ".") (replicate n "")).
  { apply Forall_replicate. by left. }
  rewrite <- (filter_keep_nil (str_split "/"%char (str_lstrip "/"%char s))).
  enough (path_name (path_of_str s) = "" <->
          filter (λ x, keep_part x = true) (str_split "/"%char (str_lstrip "/"%char s)) = [])
    by tauto.
  unfold path_of_str. destruct s as [|a s]; [split; intros _; reflexivity|].
  rewrite bool_decide_false by done. unfold splitroot.
  destruct (decide (a = "/"%char)) as [->|Ha].
  - rewrite bool_decide_true by done.
    set (rel := str_lstrip "/"%char (String "/" s)).
    set (root := if (String.length (String "/" s) - String.length rel =? 2)%nat
                 then "//" else "/").
    assert (Hr : root ≠ "") by (unfold root; by case_match).
    replace (if (String.length (String "/" s) - String.length rel =? 2)%nat
             then ("", "//", rel) else ("", "/", rel)) with ("", root, rel)
      by (unfold root; by case_match).
    cbv iota beta. change ("" +:+ root) with root. rewrite bool_decide_true by done.
    rewrite parsed_filter.
    apply (path_name_parsed root [root]); [by rewrite bool_decide_true|].
    apply filter_keep_nonempty.
  - rewrite bool_decide_false by done. cbv iota beta.
    change ("" +:+ "") with "".
    rewrite bool_decide_false by (intros H; apply H; reflexivity).
    rewrite parsed_filter.
    assert (Hl : str_lstrip "/"%char (String a s) = String a s).
    { cbn [str_lstrip]. by rewrite bool_decide_false. }
    rewrite Hl. apply (path_name_parsed "" []); [done|].
    apply filter_keep_nonempty.
Qed.

(** With a suffix like '.pkl', [prep_save] raises [ValueError] (empty
    name) exactly when the path has an empty name; otherwise it keeps the
    root and the parent parts and replaces the last part by the stem
    followed by the suffix, so the new path has that suffix and the same
    stem. *)
Theorem prep_save_dotted (path : string + PurePath) (sfx : string) :
  dotted_suffix sfx = true ->
  (path_name (to_path path) = "" ∧
   prep_save path sfx = inl (EmptyName (to_path path))) ∨
  (path_name (to_path path) ≠ "" ∧
   ∃ p', prep_save path sfx = inr p' ∧
     path_root p' = path_root (to_path path) ∧
     removelast (path_parts p') = removelast (path_parts (to_path path)) ∧
     path_name p' = path_stem (to_path path) +:+ sfx ∧
     path_suffix p' = sfx ∧ path_stem p' = path_stem (to_path path)).
Proof.
  intros Hd. unfold prep_save. set (p := to_path path).
  destruct (decide (path_name p = "")) as [Hn|Hn].
  - left. split; [done|]. by apply with_suffix_empty_name.
  - right. split; [done|]. rewrite (with_suffix_dotted p sfx Hd Hn).
    eexists. split; [reflexivity|]. cbn [path_root path_parts].
    split; [done|]. split; [by rewrite removelast_last|].
    destruct (path_name_replace p (path_stem p +:+ sfx) Hn) as [Hname _].
    split; [exact Hname|].
    exact (path_suffix_dotted _ _ _ Hd (path_stem_nonempty p Hn) Hname).
Qed.

(** A path that already has the suffix is returned as it is. *)
Theorem prep_save_suffixed (path : string + PurePath) (sfx : string) :
  dotted_suffix sfx = true -> path_suffix (to_path path) = sfx ->
  prep_save path sfx = inr (to_path path).
Proof. intros Hd Hs. unfold prep_save. by apply with_suffix_same. Qed.

(** [prep_save] is idempotent: preparing the path it returned gives that
    path again, so [save_pickle] and [load_pickle] called with the
    returned path use the same file. *)
Theorem prep_save_idempotent (path : string + PurePath) (sfx : string) p' :
  dotted_suffix sfx = true -> prep_save path sfx = inr p' ->
  prep_save (inr p') sfx = inr p'.
Proof.
  intros Hd H. unfold prep_save in *. set (p := to_path path) in H.
  destruct (decide (path_name p = "")) as [Hn|Hn].
  - rewrite (with_suffix_empty_name p sfx Hd Hn) in H. discriminate.
  - rewrite (with_suffix_dotted p sfx Hd Hn) in H. injection H as <-.
    destruct (path_name_replace p (path_stem p +:+ sfx) Hn) as [Hname _].
    apply with_suffix_same; [done|].
    exact (proj1 (path_suffix_dotted _ _ _ Hd (path_stem_nonempty p Hn) Hname)).
Qed.

(** For a string path and a suffix like '.pkl', [prep_save] raises
    [ValueError] (empty name) exactly when every '/'-separated segment of
    the string is empty or '.' (as for "", "." or "/"). *)
Theorem prep_save_str_empty_name (s sfx : string) :
  dotted_suffix sfx = true ->
  prep_save (inl s) sfx = inl (EmptyName (path_of_str s)) <->
  Forall (λ x, x = "" ∨ x = ".") (str_split "/"%char s).
Proof.
  intros Hd. rewrite <- path_name_of_str. unfold prep_save, to_path.
  destruct (decide (path_name (path_of_str s) = "")) as [Hn|Hn].
  - rewrite (with_suffix_empty_name _ sfx Hd Hn). done.
  - rewrite (with_suffix_dotted _ sfx Hd Hn). split; [discriminate|done].
Qed.

(** ** [add_cit_graph_edge] *)

Lemma add_cit_graph_node_present (g : DiGraph) n p :
  is_Some (dg_nodes g !! n) -> add_cit_graph_node g n p = g.
Proof.
  intros Hn. unfold add_cit_graph_node. by rewrite (proj2 (has_node_true g n) Hn).
Qed.

(** [add_cit_graph_edge] is idempotent: a second call with the same
    arguments, weight included, leaves the graph as the first one left it. *)
Theorem add_cit_graph_edge_idempotent (g : DiGraph) p pp c cp (w : option Z) :
  add_cit_graph_edge (add_cit_graph_edge g p pp c cp w) p pp c cp w =
  add_cit_graph_edge g p pp c cp w.
Proof.
  rewrite (add_cit_graph_edge_eq g).
  set (g1 := mkDiGraph _ _).
  rewrite add_cit_graph_edge_eq.
  assert (Hp : is_Some (dg_nodes g1 !! p)).
  { unfold g1. cbn [dg_nodes]. rewrite !is_Some_add_cit_graph_node. by left; right. }
  assert (Hc : is_Some (dg_nodes g1 !! c)).
  { unfold g1. cbn [dg_nodes]. rewrite !is_Some_add_cit_graph_node. by right. }
  rewrite (add_cit_graph_node_present g1 p pp Hp).
  rewrite (add_cit_graph_node_present g1 c cp Hc).
  unfold g1. cbn [dg_nodes dg_edges]. f_equal.
  rewrite lookup_insert_eq. cbn [default id].
  rewrite (insert_insert_eq (M:=gmap (Z * Z)) (dg_edges g)). f_equal.
  destruct w; cbn [edge_dict]; [|done].
  by rewrite (insert_insert_eq (M:=gmap string)).
Qed.

(** ** [deepcopy] and the export for graphistry *)

Section GraphistryMore.

Context {PaperInfo : Type}.

Lemma deepcopy_spec (st : Store) (o : @ObjGraph PaperInfo) :
  let '(st', o') := deepcopy st o in
  (∀ n, o_nodes o' !! n = (λ _, (next_gen st, n)) <$> o_nodes o !! n) ∧
  (∀ n l d, o_nodes o !! n = Some l -> heap st !! l = Some d ->
            heap st' !! (next_gen st, n) = Some d) ∧
  (∀ l, (l.1 < next_gen st)%nat -> heap st' !! l = heap st !! l) ∧
  next_gen st' = S (next_gen st) ∧ o_edges o' = o_edges o ∧ o_meta o' = o_meta o.
Proof.
  unfold deepcopy. set (gen := next_gen st). cbn [heap next_gen o_nodes o_edges o_meta].
  split; [|split; [|split; [|done]]].
  - intros n. rewrite map_lookup_imap. by destruct (o_nodes o !! n).
  - intros n l d Hn Hd. apply lookup_union_Some_l.
    rewrite lookup_kmap; [by rewrite lookup_omap, Hn|].
    intros ?? Heq. by injection Heq.
  - intros l Hl. apply lookup_union_r.
    apply lookup_kmap_None; [intros ?? Heq; by injection Heq|].
    intros i ->. simpl in Hl. unfold gen in Hl. lia.
Qed.

Lemma view_frame (st st' : Store) (o : @ObjGraph PaperInfo) :
  (∀ n l, o_nodes o !! n = Some l -> heap st' !! l = heap st !! l) ->
  view st' o = view st o.
Proof.
  intros H. unfold view. f_equal. f_equal. apply map_eq. intros n.
  rewrite !lookup_omap. destruct (o_nodes o !! n) as [l|] eqn:Hn; simpl; [|done].
  by apply (H n).
Qed.


Lemma export_node_error h l e : export_node h l = inl e -> e = KeyError.
Proof.
  unfold export_node. repeat case_match; congruence.
Qed.

Lemma export_node_frame h l h' :
  export_node h l = inr h' -> ∀ l', l' ≠ l -> h' !! l' = h !! l'.
Proof.
  unfold export_node. repeat case_match; intros Hx; try discriminate.
  injection Hx as <-. intros l' Hl'. by rewrite !lookup_insert_ne by congruence.
Qed.

Lemma export_node_missing h l d :
  h !! l = Some d -> d !! "scopus_id" = None ∨ d !! "title" = None ->
  export_node h l = inl KeyError.
Proof.
  intros Hl Hk. unfold export_node. rewrite Hl.
  destruct (d !! "scopus_id") eqn:Hs; [|done].
  destruct Hk as [Hk|Hk]; [congruence|].
  rewrite lookup_insert_ne by discriminate. by rewrite Hk.
Qed.

Lemma export_loop_missing (ns : list (Z * loc)) h n l d :
  NoDup ns.*2 -> (n, l) ∈ ns -> h !! l = Some d ->
  d !! "scopus_id" = None ∨ d !! "title" = None ->
  export_loop ns h = inl KeyError.
Proof.
  revert h. induction ns as [|[n0 l0] ns IH]; intros h Hnd Hin Hl Hk;
    [by apply elem_of_nil in Hin|].
  simpl in Hnd. apply NoDup_cons in Hnd as [Hl0 Hnd]. simpl.
  apply elem_of_cons in Hin as [[= -> ->]|Hin].
  - by rewrite (export_node_missing h l0 d Hl Hk).
  - assert (Hne : l ≠ l0).
    { intros ->. apply Hl0. apply list_elem_of_fmap. by exists (n, l0). }
    destruct (export_node h l0) as [e|h2] eqn:E.
    + by rewrite (export_node_error h l0 e E).
    + apply (IH h2); [done|done| |done]. by rewrite (export_node_frame h l0 h2 E l Hne).
Qed.

Lemma transform_graphistry_missing (st : Store) (o : @ObjGraph PaperInfo) :
  store_wf st o ->
  (∃ n d, dg_nodes (graph (view st o)) !! n = Some d ∧
     (d !! "scopus_id" = None ∨ d !! "title" = None)) ->
  ∃ st', transform_graphistry st o = ExRaised KeyError st' ∧ view st' o = view st o.
Proof.
  intros Hwf (n & d & Hd & Hk).
  pose proof (deepcopy_spec st o) as Hs.
  destruct (deepcopy st o) as [st1 o1] eqn:Hdc.
  destruct Hs as (Hm & Hcopy & Hold & _ & _ & _).
  cbn in Hd. rewrite lookup_omap in Hd.
  destruct (o_nodes o !! n) as [l0|] eqn:Hn; simpl in Hd; [|discriminate].
  set (ns := map_to_list (o_nodes o1)).
  assert (Hns : ∀ n' l, (n', l) ∈ ns -> l = (next_gen st, n')).
  { intros n' l Hin. unfold ns in Hin. apply elem_of_map_to_list in Hin.
    rewrite Hm in Hin. destruct (o_nodes o !! n'); simpl in Hin; [|done].
    congruence. }
  assert (Hnd : NoDup ns.*2).
  { apply (NoDup_gen_locs (next_gen st)); [exact Hns|]. apply NoDup_fst_map_to_list. }
  assert (Hin : (n, (next_gen st, n)) ∈ ns).
  { unfold ns. apply elem_of_map_to_list. by rewrite Hm, Hn. }
  exists st1. unfold transform_graphistry. rewrite Hdc. fold ns.
  rewrite (export_loop_missing ns (heap st1) n _ d Hnd Hin (Hcopy n l0 d Hn Hd) Hk).
  split; [done|]. apply view_frame. intros n' l Hn'. apply Hold, (Hwf n' l Hn').
Qed.

Lemma export_loop_frame (ns : list (Z * loc)) h h' :
  export_loop ns h = inr h' -> ∀ l, l ∉ ns.*2 -> h' !! l = h !! l.
Proof.
  revert h. induction ns as [|[n0 l0] ns IH]; intros h H l Hl; simpl in H.
  - by injection H as <-.
  - destruct (export_node h l0) as [e|h2] eqn:E; [discriminate|].
    rewrite (IH h2 H l).
    + apply (export_node_frame h l0 h2 E). intros ->. apply Hl. by apply elem_of_cons; left.
    + intros Hin. apply Hl. by apply elem_of_cons; right.
Qed.

Lemma export_node_no_title h l h' :
  export_node h l = inr h' -> ∃ d, h' !! l = Some d ∧ d !! "title" = None.
Proof.
  unfold export_node. repeat case_match; intros Hx; try discriminate.
  injection Hx as <-. eexists. rewrite lookup_insert_eq. split; [done|].
  apply lookup_delete_eq.
Qed.

Lemma export_loop_no_title (ns : list (Z * loc)) h h' :
  NoDup ns.*2 -> export_loop ns h = inr h' ->
  ∀ n l, (n, l) ∈ ns -> ∃ d, h' !! l = Some d ∧ d !! "title" = None.
Proof.
  revert h. induction ns as [|[n0 l0] ns IH]; intros h Hnd H n l Hin;
    [by apply elem_of_nil in Hin|].
  simpl in Hnd, H. apply NoDup_cons in Hnd as [Hl0 Hnd].
  destruct (export_node h l0) as [e|h2] eqn:E; [discriminate|].
  apply elem_of_cons in Hin as [[= -> ->]|Hin].
  - rewrite (export_loop_frame ns h2 h' H l0 Hl0). by apply (export_node_no_title h).
  - by apply (IH h2 Hnd H n).
Qed.

(** [transform_graphistry] raises [KeyError] when some node dict lacks
    "scopus_id" or "title", and the original graph keeps its value. *)
Theorem transform_graphistry_key_error (st : Store) (o : @ObjGraph PaperInfo) :
  store_wf st o ->
  (∃ n d, dg_nodes (graph (view st o)) !! n = Some d ∧
     (d !! "scopus_id" = None ∨ d !! "title" = None)) ->
  ∃ st', transform_graphistry st o = ExRaised KeyError st' ∧ view st' o = view st o.
Proof. apply transform_graphistry_missing. Qed.

(** The export cannot be applied to its own result: the exported node
    dicts have no "title" any more, so exporting a non-empty exported graph
    again raises [KeyError]. *)
Theorem transform_graphistry_twice (st st' : Store) (o o' : @ObjGraph PaperInfo) :
  store_wf st o -> o_nodes o ≠ ∅ ->
  transform_graphistry st o = ExOk st' o' ->
  ∃ st'', transform_graphistry st' o' = ExRaised KeyError st''.
Proof.
  intros Hwf Hne H. pose proof (deepcopy_spec st o) as Hs.
  unfold transform_graphistry in H.
  destruct (deepcopy st o) as [st1 o1] eqn:Hdc.
  destruct Hs as (Hm & _ & _ & Hgen & _ & _).
  set (ns := map_to_list (o_nodes o1)) in H.
  destruct (export_loop ns (heap st1)) as [e|h'] eqn:E; [discriminate|].
  injection H as <- <-.
  assert (Hns : ∀ n' l, (n', l) ∈ ns -> l = (next_gen st, n')).
  { intros n' l Hin. unfold ns in Hin. apply elem_of_map_to_list in Hin.
    rewrite Hm in Hin. destruct (o_nodes o !! n'); simpl in Hin; [|done].
    congruence. }
  assert (Hnd : NoDup ns.*2).
  { apply (NoDup_gen_locs (next_gen st)); [exact Hns|]. apply NoDup_fst_map_to_list. }
  assert (Hall : ∀ n l, o_nodes o1 !! n = Some l ->
            ∃ d, h' !! l = Some d ∧ d !! "title" = None).
  { intros n l Hl. apply (export_loop_no_title ns (heap st1) h' Hnd E n).
    unfold ns. by apply elem_of_map_to_list. }
  destruct (map_choose (o_nodes o) Hne) as (n & l0 & Hn).
  assert (Hn1 : o_nodes o1 !! n = Some (next_gen st, n)) by by rewrite Hm, Hn.
  destruct (transform_graphistry_missing (mkStore h' (next_gen st1)) o1)
    as (st'' & Htr & _).
  - intros n' l Hl. split.
    + rewrite Hm in Hl. destruct (o_nodes o !! n'); simpl in Hl; [|discriminate].
      injection Hl as <-. simpl. lia.
    + destruct (Hall n' l Hl) as (d & Hd & _). by exists d.
  - destruct (Hall n _ Hn1) as (d & Hd & Ht). exists n, d. split; [|by right].
    cbn. rewrite lookup_omap.
    exact (eq_trans (f_equal (λ x, x ≫= (λ l : loc, h' !! l)) Hn1) Hd).
  - by exists st''.
Qed.

End GraphistryMore.

(** * Witnesses *)

Lemma add_cit_graph_node_upsert_witness :
  has_node (add_cit_graph_node empty_digraph 1 (demo_props paper1)) 1 = true ∧
  add_cit_graph_node (add_cit_graph_node empty_digraph 1 (demo_props paper1))
    1 (demo_props paper2)
  = add_cit_graph_node empty_digraph 1 (demo_props paper1).
Proof.
  split; [vm_compute; reflexivity|].
  apply (proj2 (proj2 (proj2 add_cit_graph_node_upsert))).
  vm_compute; reflexivity.
Defined.

Lemma add_cit_graph_edge_upsert_witness :
  edge_weight_of (add_cit_graph_edge empty_digraph 1 ∅ 2 ∅ (Some 5)) 1 2
  = Some (AInt 5).
Proof.
  destruct (add_cit_graph_edge_upsert empty_digraph 1 ∅ 2 ∅ (Some 5))
    as (_&_&_&_&_&_&Hw&_).
  exact (proj2 (Hw 5 eq_refl)).
Defined.

Lemma build_from_ids_frontier_disjoint_witness :
  demo_build ["id1"; "idx"] true 2 = Ok (demo_state 2) ∧
  pid paper1 ≠ pid paper3.
Proof.
  split; [vm_compute; reflexivity|].
  apply (proj1 (build_from_ids_frontier_disjoint pid demo_props demo_get demo_refs)
           ["id1"; "idx"] true 2 (demo_state 2)
           ltac:(vm_compute; reflexivity) 0 1 [paper1] [paper3]).
  all: first [lia | vm_compute; reflexivity | apply list_elem_of_here].
Defined.

Lemma build_from_ids_depths_witness :
  0 <= 2 ∧
  ∃ s', demo_build ["id1"; "idx"] true 2 = Ok s' ∧ iter_depth s' = 2 ∧
    ∀ x, is_Some (papers_by_iter_depth s' !! x) <-> 0 <= x <= 2.
Proof.
  split; [lia|].
  apply (proj1 (build_from_ids_depths pid demo_props demo_get demo_refs)).
  lia.
Defined.

Lemma iter_step_pairs_witness :
  ∃ s', build_from_ids pid demo_props demo_get demo_self_refs ["id1"] true 1 fresh
        = Ok s' ∧
    is_Some (dg_edges (graph s') !! (pid paper1, pid paper1)) ∧
    papers_by_iter_depth s' !! 1 = Some [].
Proof.
  apply (proj2 (proj2 (iter_step_pairs pid demo_props demo_get demo_self_refs))
           "id1" true paper1); vm_compute; reflexivity.
Defined.

Lemma retrieval_counters_witness :
  (0 <= retrievals_failed (demo_state 2) <= retrievals_total (demo_state 2)) ∧
  retrievals_total (demo_state 2)
  = retrievals_failed (demo_state 2) + successes (trace (demo_state 2)) ∧
  retrievals_failed (demo_state 2) = failures (trace (demo_state 2)).
Proof.
  apply (proj2 (proj2 (retrieval_counters pid demo_props demo_get demo_refs))
           ["id1"; "idx"] true 2).
  vm_compute; reflexivity.
Defined.

Lemma initialise_post_witness :
  graph (init_step pid demo_props demo_get "doi" (@fresh demo_paper, []) "idx").1
  = graph (@fresh demo_paper) ∧
  retrievals_failed
    (init_step pid demo_props demo_get "doi" (@fresh demo_paper, []) "idx").1
  = retrievals_failed (@fresh demo_paper) + 1 ∧
  retrievals_total
    (init_step pid demo_props demo_get "doi" (@fresh demo_paper, []) "idx").1
  = retrievals_total (@fresh demo_paper) + 1.
Proof.
  apply (proj2 (initialise_post pid demo_props demo_get demo_refs)
           "doi" fresh [] "idx").
  vm_compute; reflexivity.
Defined.

Lemma build_from_ids_validation_witness :
  demo_build ["id1"] true (-1)
  = Raised (ValueError "Target depth must be non-negative!") fresh.
Proof.
  apply (proj1 (build_from_ids_validation pid demo_props demo_get demo_refs)).
  lia.
Defined.

Lemma transform_graphistry_pure_witness :
  ∃ st' o', transform_graphistry demo_store demo_obj = ExOk st' o' ∧
    view st' demo_obj = view demo_store demo_obj.
Proof.
  destruct (transform_graphistry_pure demo_store demo_obj)
    as (st' & o' & Ht & Hv & _).
  - intros n l H. cbn [o_nodes demo_obj] in H.
    apply lookup_singleton_Some in H as [<- <-].
    split; [simpl; lia|vm_compute; eexists; reflexivity].
  - intros n d H. unfold view in H. cbn [graph set_graph dg_nodes o_nodes demo_obj] in H.
    rewrite lookup_omap in H. destruct (decide (n = 1)) as [->|Hn].
    + vm_compute in H. injection H as <-. split; vm_compute; eexists; reflexivity.
    + rewrite lookup_singleton_ne in H; [discriminate|done].
  - exists st', o'. by split.
Defined.

Lemma build_from_ids_no_weights_witness :
  edge_weight_of (graph (demo_state 2)) 1 3 = None.
Proof.
  apply (proj2 (build_from_ids_no_weights pid demo_props demo_get demo_refs)
           ["id1"; "idx"] true 2).
  vm_compute; reflexivity.
Defined.

Lemma build_from_ids_calls_witness :
  build_from_ids pid demo_props demo_get demo_refs ["id1"; "idx"] true 2 fresh
  = Ok (demo_state 2) ∧
  ∃ evs, length evs = 2%nat ∧
    trace (demo_state 2) = trace (@fresh demo_paper) ++
      map (λ i, EvGet i "doi" 0 (demo_get i "doi" 0)) ["id1"; "idx"] ++ evs.
Proof.
  assert (H : build_from_ids pid demo_props demo_get demo_refs ["id1"; "idx"] true 2 fresh
  = Ok (demo_state 2))
    by (vm_compute; reflexivity).
  split; [exact H|].
  pose proof (build_from_ids_calls pid demo_props demo_get demo_refs
                ["id1"; "idx"] true 2 fresh (demo_state 2) H) as Hc.
  cbv zeta in Hc. destruct Hc as (evs & Ht & Hl & _).
  exists evs. split; [exact Hl|exact Ht].
Defined.

Lemma build_from_ids_resume_witness :
  0 <= 1 ∧
  ∃ s', demo_resume = Ok s' ∧ iter_depth s' = 2 ∧ use_doi s' = Some false.
Proof.
  split; [lia|].
  destruct (build_from_ids_resume pid demo_props demo_get demo_refs
              ["id2"] false 1 (demo_state 1) ltac:(lia))
    as (s' & H & Hd & _ & Hu & _).
  exists s'. split; [exact H|]. split; [|exact Hu].
  rewrite Hd. vm_compute. reflexivity.
Defined.

Lemma build_from_ids_keeps_graph_witness :
  build_from_ids pid demo_props demo_get demo_refs ["id2"] false 1 (demo_state 1)
  = Ok (outcome_state demo_resume) ∧
  dg_nodes (graph (outcome_state demo_resume)) !! 3 = Some (demo_props paper3).
Proof.
  assert (H : build_from_ids pid demo_props demo_get demo_refs ["id2"] false 1 (demo_state 1)
  = Ok (outcome_state demo_resume))
    by (vm_compute; reflexivity).
  split; [exact H|].
  apply (proj1 (build_from_ids_keeps_graph pid demo_props demo_get demo_refs
                  ["id2"] false 1 (demo_state 1) _ H)).
  vm_compute. reflexivity.
Defined.

Lemma build_from_ids_edges_closed_witness :
  edges_closed (graph (@fresh demo_paper)) ∧
  build_from_ids pid demo_props demo_get demo_refs ["id1"; "idx"] true 2 fresh
  = Ok (demo_state 2) ∧
  edges_closed (graph (demo_state 2)).
Proof.
  assert (Hc : edges_closed (graph (@fresh demo_paper))).
  { intros u v. cbn. rewrite lookup_empty. by intros []. }
  assert (H : build_from_ids pid demo_props demo_get demo_refs ["id1"; "idx"] true 2 fresh
  = Ok (demo_state 2))
    by (vm_compute; reflexivity).
  split; [exact Hc|]. split; [exact H|].
  exact (build_from_ids_edges_closed pid demo_props demo_get demo_refs
           ["id1"; "idx"] true 2 fresh (demo_state 2) Hc H).
Defined.

Lemma build_from_ids_provenance_witness :
  build_from_ids pid demo_props demo_get demo_refs ["id1"; "idx"] true 2 fresh
  = Ok (demo_state 2) ∧
  provenance pid demo_props (demo_state 2).
Proof.
  assert (H : build_from_ids pid demo_props demo_get demo_refs ["id1"; "idx"] true 2 fresh
  = Ok (demo_state 2))
    by (vm_compute; reflexivity).
  split; [exact H|].
  exact (build_from_ids_provenance pid demo_props demo_get demo_refs
           ["id1"; "idx"] true 2 (demo_state 2) H).
Defined.

Lemma build_from_ids_frontier_nodes_witness :
  build_from_ids pid demo_props demo_get demo_refs ["id1"; "idx"] true 2 fresh
  = Ok (demo_state 2) ∧
  frontier_nodes pid (demo_state 2).
Proof.
  assert (H : build_from_ids pid demo_props demo_get demo_refs ["id1"; "idx"] true 2 fresh
  = Ok (demo_state 2))
    by (vm_compute; reflexivity).
  split; [exact H|].
  exact (build_from_ids_frontier_nodes pid demo_props demo_get demo_refs
           ["id1"; "idx"] true 2 (demo_state 2) H).
Defined.

Lemma prep_save_dotted_witness :
  dotted_suffix ".pkl" = true ∧
  ∃ p', prep_save (inl "data/graph") ".pkl" = inr p' ∧ path_suffix p' = ".pkl".
Proof.
  split; [reflexivity|].
  destruct (prep_save_dotted (inl "data/graph") ".pkl" eq_refl)
    as [[Hn _]|(_ & p' & Hp & _ & _ & _ & Hs & _)].
  - vm_compute in Hn. discriminate.
  - exists p'. split; [exact Hp|exact Hs].
Defined.

Lemma prep_save_suffixed_witness :
  dotted_suffix ".pkl" = true ∧ path_suffix (to_path (inl "data/graph.pkl")) = ".pkl" ∧
  prep_save (inl "data/graph.pkl") ".pkl" = inr (to_path (inl "data/graph.pkl")).
Proof.
  split; [reflexivity|]. split; [vm_compute; reflexivity|].
  apply (prep_save_suffixed (inl "data/graph.pkl") ".pkl"); vm_compute; reflexivity.
Defined.

Lemma prep_save_idempotent_witness :
  dotted_suffix ".pkl" = true ∧
  prep_save (inl "data/graph") ".pkl" = inr (mkPath "" ["data"; "graph.pkl"]) ∧
  prep_save (inr (mkPath "" ["data"; "graph.pkl"])) ".pkl"
  = inr (mkPath "" ["data"; "graph.pkl"]).
Proof.
  assert (H : prep_save (inl "data/graph") ".pkl" = inr (mkPath "" ["data"; "graph.pkl"]))
    by (vm_compute; reflexivity).
  split; [reflexivity|]. split; [exact H|].
  exact (prep_save_idempotent (inl "data/graph") ".pkl" _ eq_refl H).
Defined.

Lemma prep_save_str_empty_name_witness :
  dotted_suffix ".pkl" = true ∧
  prep_save (inl "./") ".pkl" = inl (EmptyName (path_of_str "./")).
Proof.
  split; [reflexivity|].
  apply (proj2 (prep_save_str_empty_name "./" ".pkl" eq_refl)).
  apply (bool_decide_unpack _). vm_compute. exact I.
Defined.


Lemma transform_graphistry_key_error_witness :
  store_wf demo_bad_store demo_obj ∧
  ∃ st', transform_graphistry demo_bad_store demo_obj = ExRaised KeyError st' ∧
    view st' demo_obj = view demo_bad_store demo_obj.
Proof.
  assert (Hwf : store_wf demo_bad_store demo_obj).
  { intros n l H. cbn [o_nodes demo_obj] in H.
    apply lookup_singleton_Some in H as [<- <-].
    split; [simpl; lia|vm_compute; eexists; reflexivity]. }
  split; [exact Hwf|].
  apply (transform_graphistry_key_error demo_bad_store demo_obj Hwf).
  exists 1, {[ "scopus_id" := AInt 1 ]}.
  split; [vm_compute; reflexivity|right; vm_compute; reflexivity].
Defined.

Lemma transform_graphistry_twice_witness :
  store_wf demo_store demo_obj ∧ o_nodes demo_obj ≠ ∅ ∧
  transform_graphistry demo_store demo_obj
  = ExOk (export_store (transform_graphistry demo_store demo_obj))
         (export_obj (transform_graphistry demo_store demo_obj)) ∧
  ∃ st'', transform_graphistry (export_store (transform_graphistry demo_store demo_obj))
            (export_obj (transform_graphistry demo_store demo_obj))
          = ExRaised KeyError st''.
Proof.
  assert (Hwf : store_wf demo_store demo_obj).
  { intros n l H. cbn [o_nodes demo_obj] in H.
    apply lookup_singleton_Some in H as [<- <-].
    split; [simpl; lia|vm_compute; eexists; reflexivity]. }
  assert (Hne : o_nodes demo_obj ≠ ∅).
  { intros H. pose proof (f_equal (λ m : gmap Z loc, m !! 1) H) as H1.
    vm_compute in H1. discriminate. }
  assert (Hok : transform_graphistry demo_store demo_obj
    = ExOk (export_store (transform_graphistry demo_store demo_obj))
           (export_obj (transform_graphistry demo_store demo_obj)))
    by (vm_compute; reflexivity).
  split; [exact Hwf|]. split; [exact Hne|]. split; [exact Hok|].
  exact (transform_graphistry_twice demo_store _ demo_obj _ Hwf Hne Hok).
Defined.
